(** * Preference-store MAC scripts of meteor_v2: canonical JSON and HMAC

    A shallow embedding of [test-data/analyze-json.py] (the verifier),
    [test-data/find-mac-keys.py] and [test-data/debug-extension.py]
    (the hypothesis search), with the properties their specification
    states about canonicalisation, pruning, path lookup and the MAC.

    Modelling conventions.
    - A Python [str] is represented by its UTF-8 encoding, a Rocq [string]
      (a list of 8-bit characters).  Concatenation, equality, ordering
      (code-point order coincides with byte order on UTF-8) and the JSON
      escaping used here (only code points below 0x20, the quote and the
      backslash are rewritten when [ensure_ascii=False]) all act on that
      encoding, and [s.encode('utf-8')] is the list of its bytes.
    - A Python [dict] is an association list in insertion order; a
      well-formed one has pairwise distinct keys ([wf]).
    - [hashlib.sha256] and [hmac.new] are library code: they are written
      out here after FIPS 180-4 and RFC 2104 so that MACs can be computed. *)

From Stdlib Require Import String Ascii DecimalString.
From Stdlib Require Import ZArith List Bool Lia.
From Stdlib Require Import Permutation Sorted.
Import ListNotations.

Local Open Scope string_scope.
Local Open Scope list_scope.
Local Open Scope Z_scope.

(** String concatenation, Python's [+] on [str]. *)
Local Infix "+++" := String.append (at level 60, right associativity).

(** ** Bytes and strings *)

(** [s.encode('utf-8')], on the UTF-8 representation of [s]. *)
Definition encode_utf8 (s : string) : list Z :=
  map (fun c => Z.of_N (N_of_ascii c)) (list_ascii_of_string s).

(** ** SHA-256 (FIPS 180-4), on 32-bit words held in [Z] *)

Module SHA256.

Definition wrap (x : Z) : Z := x mod 2 ^ 32.
Definition add32 (x y : Z) : Z := wrap (x + y).
Definition rotr (n x : Z) : Z :=
  Z.lor (Z.shiftr x n) (wrap (Z.shiftl x (32 - n))).
Definition shr (n x : Z) : Z := Z.shiftr x n.
Definition not32 (x : Z) : Z := Z.lxor x (2 ^ 32 - 1).

Definition Ch (x y z : Z) : Z := Z.lxor (Z.land x y) (Z.land (not32 x) z).
Definition Maj (x y z : Z) : Z :=
  Z.lxor (Z.lxor (Z.land x y) (Z.land x z)) (Z.land y z).
Definition bsig0 (x : Z) : Z := Z.lxor (Z.lxor (rotr 2 x) (rotr 13 x)) (rotr 22 x).
Definition bsig1 (x : Z) : Z := Z.lxor (Z.lxor (rotr 6 x) (rotr 11 x)) (rotr 25 x).
Definition ssig0 (x : Z) : Z := Z.lxor (Z.lxor (rotr 7 x) (rotr 18 x)) (shr 3 x).
Definition ssig1 (x : Z) : Z := Z.lxor (Z.lxor (rotr 17 x) (rotr 19 x)) (shr 10 x).

(** Round constants: the first 32 bits of the fractional parts of the cube
    roots of the first 64 primes. *)
Definition K : list Z :=
  [ 1116352408; 1899447441; 3049323471; 3921009573; 961987163; 1508970993;
    2453635748; 2870763221; 3624381080; 310598401; 607225278; 1426881987;
    1925078388; 2162078206; 2614888103; 3248222580; 3835390401; 4022224774;
    264347078; 604807628; 770255983; 1249150122; 1555081692; 1996064986;
    2554220882; 2821834349; 2952996808; 3210313671; 3336571891; 3584528711;
    113926993; 338241895; 666307205; 773529912; 1294757372; 1396182291;
    1695183700; 1986661051; 2177026350; 2456956037; 2730485921; 2820302411;
    3259730800; 3345764771; 3516065817; 3600352804; 4094571909; 275423344;
    430227734; 506948616; 659060556; 883997877; 958139571; 1322822218;
    1537002063; 1747873779; 1955562222; 2024104815; 2227730452; 2361852424;
    2428436474; 2756734187; 3204031479; 3329325298 ].

(** The eight working variables, also the chaining value. *)
Record state : Type := mkState {
  ha : Z; hb : Z; hc : Z; hd : Z; he : Z; hf : Z; hg : Z; hh : Z }.

Definition init : state :=
  mkState 1779033703 3144134277 1013904242 2773480762
          1359893119 2600822924 528734635 1541459225.

(** Big-endian bytes of an integer, [n] of them. *)
Fixpoint be_bytes (n : nat) (x : Z) : list Z :=
  match n with
  | O => []
  | S n' => (Z.shiftr x (8 * Z.of_nat n')) mod 256 :: be_bytes n' x
  end.

Definition be_word (bs : list Z) : Z :=
  fold_left (fun acc b => acc * 256 + b) bs 0.

(** Padding: a 1 bit, zeros up to 56 mod 64 bytes, the bit length on 8 bytes. *)
Definition pad (msg : list Z) : list Z :=
  let len := Z.of_nat (length msg) in
  let zeros := Z.to_nat ((55 - len) mod 64) in
  msg ++ 128 :: repeat 0 zeros ++ be_bytes 8 (8 * len).

(** Cut a list into pieces of [n] elements; [fuel] bounds the number of pieces. *)
Fixpoint chunks {A} (fuel n : nat) (l : list A) : list (list A) :=
  match fuel, l with
  | O, _ => []
  | _, [] => []
  | S fuel', _ => firstn n l :: chunks fuel' n (skipn n l)
  end.

Definition block_words (block : list Z) : list Z :=
  map be_word (chunks 16 4 block).

(** Message schedule, newest word first. *)
Fixpoint extend (n : nat) (rw : list Z) : list Z :=
  match n with
  | O => rw
  | S n' =>
      let w := add32 (add32 (ssig1 (nth 1 rw 0)) (nth 6 rw 0))
                     (add32 (ssig0 (nth 14 rw 0)) (nth 15 rw 0)) in
      extend n' (w :: rw)
  end.

Definition schedule (block : list Z) : list Z :=
  rev (extend 48 (rev (block_words block))).

Definition round (s : state) (kw : Z * Z) : state :=
  let '(k, w) := kw in
  let t1 := add32 (add32 (add32 (hh s) (bsig1 (he s)))
                         (add32 (Ch (he s) (hf s) (hg s)) k)) w in
  let t2 := add32 (bsig0 (ha s)) (Maj (ha s) (hb s) (hc s)) in
  mkState (add32 t1 t2) (ha s) (hb s) (hc s) (add32 (hd s) t1) (he s) (hf s) (hg s).

Definition compress (h : state) (block : list Z) : state :=
  let s := fold_left round (combine K (schedule block)) h in
  mkState (add32 (ha h) (ha s)) (add32 (hb h) (hb s)) (add32 (hc h) (hc s))
          (add32 (hd h) (hd s)) (add32 (he h) (he s)) (add32 (hf h) (hf s))
          (add32 (hg h) (hg s)) (add32 (hh h) (hh s)).

Definition state_bytes (s : state) : list Z :=
  be_bytes 4 (ha s) ++ be_bytes 4 (hb s) ++ be_bytes 4 (hc s) ++ be_bytes 4 (hd s) ++
  be_bytes 4 (he s) ++ be_bytes 4 (hf s) ++ be_bytes 4 (hg s) ++ be_bytes 4 (hh s).

(** [hashlib.sha256(msg).digest()] *)
Definition digest (msg : list Z) : list Z :=
  let p := pad msg in
  state_bytes (fold_left compress (chunks (length p) 64 p) init).

End SHA256.

(** ** HMAC (RFC 2104) with SHA-256: [hmac.new(key, msg, hashlib.sha256)] *)

Module HMAC.

Definition block_size : nat := 64.

Definition block_key (key : list Z) : list Z :=
  let k := if Nat.ltb block_size (length key) then SHA256.digest key else key in
  k ++ repeat 0 (block_size - length k).

Definition xor_pad (c : Z) (k : list Z) : list Z := map (Z.lxor c) k.

(** [hmac.new(key, msg, hashlib.sha256).digest()] *)
Definition digest (key msg : list Z) : list Z :=
  let k := block_key key in
  SHA256.digest (xor_pad 92 k ++ SHA256.digest (xor_pad 54 k ++ msg)).

End HMAC.

(** ** Hexadecimal rendering *)

Definition hex_digit (n : Z) : ascii :=
  match n with
  | 0 => "0" | 1 => "1" | 2 => "2" | 3 => "3" | 4 => "4" | 5 => "5" | 6 => "6"
  | 7 => "7" | 8 => "8" | 9 => "9" | 10 => "a" | 11 => "b" | 12 => "c"
  | 13 => "d" | 14 => "e" | _ => "f"
  end%char.

(** [bytes.hex()] / [hexdigest()]: two lower-case digits per byte. *)
Fixpoint hexlify (bs : list Z) : string :=
  match bs with
  | [] => ""
  | b :: bs' => String (hex_digit (b / 16)) (String (hex_digit (b mod 16)) (hexlify bs'))
  end.

(** [str.upper()] and [str.lower()] on the ASCII letters. *)
Definition upper_char (c : ascii) : ascii :=
  let n := N_of_ascii c in
  if (N.leb 97 n && N.leb n 122)%bool then ascii_of_N (n - 32) else c.

Definition lower_char (c : ascii) : ascii :=
  let n := N_of_ascii c in
  if (N.leb 65 n && N.leb n 90)%bool then ascii_of_N (n + 32) else c.

Fixpoint str_map (f : ascii -> ascii) (s : string) : string :=
  match s with
  | EmptyString => EmptyString
  | String c s' => String (f c) (str_map f s')
  end.

Definition upper (s : string) : string := str_map upper_char s.
Definition lower (s : string) : string := str_map lower_char s.

(** [hmac_sha256(key, message)] of the three scripts. *)
Definition hmac_sha256 (key message : string) : string :=
  let key_bytes := encode_utf8 key in
  let message_bytes := encode_utf8 message in
  upper (hexlify (HMAC.digest key_bytes message_bytes)).

(** ** JSON values as [json.load] produces them *)

(** A Python [float], held by the text [float.__repr__] gives for it; the
    three non-finite values print differently under [str] and [json.dumps]. *)
Inductive pyfloat : Type :=
| FFinite (repr : string)
| FNan
| FInf
| FNegInf.

#[local] Set Warnings "-register-all".

Inductive value : Type :=
| JNull
| JBool (b : bool)
| JInt (z : Z)
| JFloat (f : pyfloat)
| JStr (s : string)
| JList (l : list value)
| JDict (d : list (string * value)).

Definition dquote : ascii := "034"%char.
Definition backslash : ascii := "092"%char.

(** A Python string literal in double quotes. *)
Definition quoted (s : string) : string := String dquote (s +++ String dquote "").

(** [str(n)] for an [int]. *)
Definition str_int (z : Z) : string := NilZero.string_of_int (Z.to_int z).

(** [str(x)] for a [float]. *)
Definition str_float (f : pyfloat) : string :=
  match f with
  | FFinite r => r
  | FNan => "nan"
  | FInf => "inf"
  | FNegInf => "-inf"
  end.

(** [json.encoder.floatstr] with [allow_nan=True]. *)
Definition json_float (f : pyfloat) : string :=
  match f with
  | FFinite r => r
  | FNan => "NaN"
  | FInf => "Infinity"
  | FNegInf => "-Infinity"
  end.

(** [json.encoder.ESCAPE_DCT]: the replacement of one character when
    [ensure_ascii=False]. *)
Definition escape_char (c : ascii) : string :=
  let n := Z.of_N (N_of_ascii c) in
  if n =? 92 then String backslash (String backslash "")
  else if n =? 34 then String backslash (String dquote "")
  else if n =? 8 then String backslash "b"
  else if n =? 12 then String backslash "f"
  else if n =? 10 then String backslash "n"
  else if n =? 13 then String backslash "r"
  else if n =? 9 then String backslash "t"
  else if n <? 32 then
    String backslash ("u00" +++ String (hex_digit (n / 16)) (String (hex_digit (n mod 16)) ""))
  else String c "".

Fixpoint escape (s : string) : string :=
  match s with
  | EmptyString => ""
  | String c s' => escape_char c +++ escape s'
  end.

(** [json.encoder.encode_basestring] *)
Definition encode_basestring (s : string) : string := quoted (escape s).

(** [sep.join(parts)] *)
Fixpoint join (sep : string) (parts : list string) : string :=
  match parts with
  | [] => ""
  | [p] => p
  | p :: rest => p +++ sep +++ join sep rest
  end.

(** [json.dumps(v, separators=(',', ':'), ensure_ascii=False)]: dictionary
    entries are written in insertion order. *)
Fixpoint json_dumps (v : value) : string :=
  match v with
  | JNull => "null"
  | JBool true => "true"
  | JBool false => "false"
  | JInt z => str_int z
  | JFloat f => json_float f
  | JStr s => encode_basestring s
  | JList [] => "[]"
  | JList l => "[" +++ join "," (map json_dumps l) +++ "]"
  | JDict [] => "{}"
  | JDict d =>
      "{" +++ join "," (map (fun kv => encode_basestring (fst kv) +++ ":" +++ json_dumps (snd kv)) d)
          +++ "}"
  end.

(** ** Dictionaries *)

Definition keys (d : list (string * value)) : list string := map fst d.

(** [d.get(k)]: [None] (here the option) when the key is absent. *)
Fixpoint dict_get (d : list (string * value)) (k : string) : option value :=
  match d with
  | [] => None
  | (k', v) :: d' => if String.eqb k k' then Some v else dict_get d' k
  end.

(** [d[k]] for a key taken from [d.keys()]; the default is never reached there. *)
Definition dict_item (d : list (string * value)) (k : string) : value :=
  match dict_get d k with
  | Some v => v
  | None => JNull
  end.

(** [sorted] on strings, by insertion. *)
Fixpoint insert_key (k : string) (l : list string) : list string :=
  match l with
  | [] => [k]
  | x :: l' => if String.leb k x then k :: l else x :: insert_key k l'
  end.

Fixpoint sorted (l : list string) : list string :=
  match l with
  | [] => []
  | k :: l' => insert_key k (sorted l')
  end.

(** [sorted] on (key, value) tuples of a dictionary: keys are distinct, so the
    tuple order is the key order. *)
Fixpoint insert_item (kv : string * value) (l : list (string * value))
  : list (string * value) :=
  match l with
  | [] => [kv]
  | x :: l' => if String.leb (fst kv) (fst x) then kv :: l else x :: insert_item kv l'
  end.

Fixpoint sorted_items (l : list (string * value)) : list (string * value) :=
  match l with
  | [] => []
  | kv :: l' => insert_item kv (sorted_items l')
  end.

(** A value built by [json.load]: every dictionary has distinct keys. *)
Fixpoint nodupb (l : list string) : bool :=
  match l with
  | [] => true
  | k :: l' => negb (existsb (String.eqb k) l') && nodupb l'
  end.

Fixpoint wf (v : value) : bool :=
  match v with
  | JList l => forallb wf l
  | JDict d => nodupb (map fst d) && forallb (fun kv => wf (snd kv)) d
  | _ => true
  end.

(** ** analyze-json.py *)

(** [isinstance(v, dict) and len(v) == 0], [isinstance(v, list) and len(v) == 0] *)
Definition is_empty_dict (v : value) : bool :=
  match v with JDict [] => true | _ => false end.
Definition is_empty_list (v : value) : bool :=
  match v with JList [] => true | _ => false end.

(** The loop body of [prune_empty_recursive] over the sorted keys; [pruned k]
    is [prune_empty_recursive(obj[k])]. *)
Fixpoint prune_loop (pruned : string -> value) (ks : list string)
  : list (string * value) :=
  match ks with
  | [] => []
  | k :: ks' =>
      let v := pruned k in
      if is_empty_dict v then prune_loop pruned ks'
      else if is_empty_list v then prune_loop pruned ks'
      else (k, v) :: prune_loop pruned ks'
  end.

(** [prune_empty_recursive(obj)].  The recursive calls are made on the
    entries of [obj] ([pruned_entries]) and looked up by key in the loop,
    which is [prune_empty_recursive(obj[k])] (see [prune_empty_recursive_dict]). *)
Fixpoint prune_empty_recursive (obj : value) : value :=
  match obj with
  | JDict d =>
      let pruned_entries :=
        (fix entries (l : list (string * value)) : list (string * value) :=
           match l with
           | [] => []
           | (k, v) :: l' => (k, prune_empty_recursive v) :: entries l'
           end) d in
      JDict (prune_loop (dict_item pruned_entries) (sorted (keys d)))
  | JList l => JList (map prune_empty_recursive l)
  | _ => obj
  end.

(** [value_to_json_chromium(value)] *)
Definition value_to_json_chromium (value : value) : string :=
  match value with
  | JNull => ""
  | JBool b => if b then "true" else "false"
  | JList l =>
      if (length l =? 0)%nat then "[]"
      else json_dumps (prune_empty_recursive value)
  | JDict _ => json_dumps (prune_empty_recursive value)
  | JStr _ => json_dumps value
  | JInt z => str_int z
  | JFloat f => str_float f
  end.

(** [path.split('.')] *)
Fixpoint split_dot (s : string) : list string :=
  match s with
  | EmptyString => [""]
  | String c s' =>
      if Ascii.eqb c "." then "" :: split_dot s'
      else match split_dot s' with
           | [] => [String c ""]
           | h :: t => String c h :: t
           end
  end.

(** The loop of [get_value_at_path] over the remaining parts. *)
Fixpoint walk (current : value) (parts : list string) : value :=
  match parts with
  | [] => current
  | part :: parts' =>
      match current with
      | JNull => JNull
      | JDict d =>
          walk (match dict_get d part with Some v => v | None => JNull end) parts'
      | _ => JNull
      end
  end.

(** [get_value_at_path(obj, path)] *)
Definition get_value_at_path (obj : value) (path : string) : value :=
  walk obj (split_dot path).

(** [calculate_mac(seed, device_id, path, value)] *)
Definition calculate_mac (seed device_id path : string) (value : value) : string :=
  let value_json := value_to_json_chromium value in
  let message := device_id +++ path +++ value_json in
  hmac_sha256 seed message.

(** [needle in hay] on strings. *)
Fixpoint str_contains (needle hay : string) : bool :=
  if String.prefix needle hay then true
  else match hay with
       | EmptyString => false
       | String _ hay' => str_contains needle hay'
       end.

(** The outcome of the verification loop of [main]. *)
Record report : Type := mkReport {
  passed : nat;
  failed : nat;
  failed_items : list (string * string * string * value) }.

Section Verifier.

(** The module-level data loaded from the two capture files. *)
Variables (DEVICE_ID FILE_SEED : string) (secure_prefs : value).

(** The test [calculated_mac == expected_mac] of [main] for one record. *)
Definition record_passes (path expected_mac : string) : bool :=
  let value := get_value_at_path secure_prefs path in
  let calculated_mac := calculate_mac FILE_SEED DEVICE_ID path value in
  String.eqb calculated_mac expected_mac.

(** The loop of [main] over [browser_state['file_macs'].items()]. *)
Fixpoint main_loop (filter_path : string) (file_macs : list (string * string))
  (r : report) : report :=
  match file_macs with
  | [] => r
  | (path, expected_mac) :: rest =>
      if String.eqb path "_description" then main_loop filter_path rest r
      else if (negb (String.eqb filter_path "") && negb (str_contains filter_path path))%bool
      then main_loop filter_path rest r
      else
        let value := get_value_at_path secure_prefs path in
        let calculated_mac := calculate_mac FILE_SEED DEVICE_ID path value in
        if String.eqb calculated_mac expected_mac
        then main_loop filter_path rest
               (mkReport (S (passed r)) (failed r) (failed_items r))
        else main_loop filter_path rest
               (mkReport (passed r) (S (failed r))
                  (failed_items r ++ [(path, expected_mac, calculated_mac, value)]))
  end.

End Verifier.

(** ** find-mac-keys.py and debug-extension.py *)

(** [sort_dict_recursive(obj)] *)
Fixpoint sort_dict_recursive (obj : value) : value :=
  match obj with
  | JDict d =>
      JDict (sorted_items
               ((fix entries (l : list (string * value)) : list (string * value) :=
                   match l with
                   | [] => []
                   | (k, v) :: l' => (k, sort_dict_recursive v) :: entries l'
                   end) d))
  | JList l => JList (map sort_dict_recursive l)
  | _ => obj
  end.

Section Search.

Variables (DEVICE_ID FILE_SEED PATH : string).

(** [calc_mac(val)] of find-mac-keys.py *)
Definition calc_mac (val : value) : string :=
  let sorted_val := sort_dict_recursive val in
  let json_str := json_dumps sorted_val in
  hmac_sha256 FILE_SEED (DEVICE_ID +++ PATH +++ json_str).

(** Approach 3 of debug-extension.py: no sorting, original key order. *)
Definition mac_no_sorting (value : value) : string :=
  let json3 := json_dumps value in
  hmac_sha256 FILE_SEED (DEVICE_ID +++ PATH +++ json3).

End Search.

(** ** The tests of find-mac-keys.py and the key report of debug-extension.py *)

(** What a statement of the scripts can raise. *)
Inductive pyerror : Type :=
| KeyError (key : string)
| AttributeError.

Inductive outcome (A : Type) : Type :=
| Returned (a : A)
| Raised (e : pyerror).

Arguments Returned {A} a.
Arguments Raised {A} e.

(** [{k: v for k, v in value.items() if k != key}] *)
Definition without_key (key : string) (d : list (string * value)) : list (string * value) :=
  filter (fun kv => negb (String.eqb (fst kv) key)) d.

(** [{k: v for k, v in value.items() if k not in exclude_list}] *)
Definition without_keys (exclude_list : list string) (d : list (string * value))
  : list (string * value) :=
  filter (fun kv => negb (existsb (String.eqb (fst kv)) exclude_list)) d.

(** [d[k] = v] on a dictionary: an existing key keeps its place, a new one
    goes last. *)
Fixpoint dict_set (d : list (string * value)) (k : string) (v : value)
  : list (string * value) :=
  match d with
  | [] => [(k, v)]
  | (k', v') :: d' => if String.eqb k k' then (k, v) :: d' else (k', v') :: dict_set d' k v
  end.

(** [s.replace(old, new)] for [old] of one character. *)
Fixpoint replace_char (old : ascii) (new : string) (s : string) : string :=
  match s with
  | EmptyString => ""
  | String c s' =>
      if Ascii.eqb c old then new +++ replace_char old new s'
      else String c (replace_char old new s')
  end.

(** The three values tried for the [path] entry in Test 5. *)
Definition variations (original_path : string) : list (string * string) :=
  [ ("Original", original_path);
    ("Forward slashes", replace_char backslash "/" original_path);
    ("Double backslash",
     replace_char backslash (String backslash (String backslash "")) original_path) ].

Section SearchTests.

Variables (DEVICE_ID FILE_SEED PATH EXPECTED_MAC : string).

(** The value under test, [value = secure_prefs['extensions']['settings'][EXT_ID]]. *)
Variable value_ : list (string * value).

(** Test 1: the loop over the sorted keys, left at the first key whose
    removal gives the expected MAC; [None] is the [else] of the loop. *)
Fixpoint test1_loop (ks : list string) : option string :=
  match ks with
  | [] => None
  | key :: ks' =>
      let test_val := without_key key value_ in
      let mac := calc_mac DEVICE_ID FILE_SEED PATH (JDict test_val) in
      if String.eqb mac EXPECTED_MAC then Some key else test1_loop ks'
  end.

Definition test1 : option string := test1_loop (sorted (keys value_)).

(** Test 2, for one exclusion list: whether the MAC matches. *)
Definition test2 (exclude_list : list string) : bool :=
  let test_val := without_keys exclude_list value_ in
  let mac := calc_mac DEVICE_ID FILE_SEED PATH (JDict test_val) in
  String.eqb mac EXPECTED_MAC.

(** Test 5: the loop over the variations; [test_val] is one dictionary,
    assigned to in every round.  The result is the MAC of each round. *)
Fixpoint test5_loop (test_val : list (string * value))
  (vs : list (string * string)) : list (string * string) :=
  match vs with
  | [] => []
  | (name, path_val) :: vs' =>
      let test_val' := dict_set test_val "path" (JStr path_val) in
      (name, calc_mac DEVICE_ID FILE_SEED PATH (JDict test_val')) :: test5_loop test_val' vs'
  end.

(** Test 5 from [test_val = dict(value)] on: [test_val['path']] raises on a
    missing key, and [.replace] on a value that is not a string. *)
Definition test5 : outcome (list (string * string)) :=
  match dict_get value_ "path" with
  | None => Raised (KeyError "path")
  | Some (JStr original_path) => Returned (test5_loop value_ (variations original_path))
  | Some _ => Raised AttributeError
  end.

End SearchTests.

(** [original_keys == sorted_keys] *)
Fixpoint keys_eqb (l1 l2 : list string) : bool :=
  match l1, l2 with
  | [], [] => true
  | a :: l1', b :: l2' => String.eqb a b && keys_eqb l1' l2'
  | _, _ => false
  end.

(** The positions printed by the key order analysis of debug-extension.py:
    [enumerate(zip(original_keys, sorted_keys))] from index [i], the pairs
    that differ. *)
Fixpoint key_diffs (i : nat) (original_keys sorted_keys : list string)
  : list (nat * string * string) :=
  match original_keys, sorted_keys with
  | o :: os, s :: ss =>
      if String.eqb o s then key_diffs (S i) os ss
      else (i, o, s) :: key_diffs (S i) os ss
  | _, _ => []
  end.

(** The key order analysis: [None] when the keys are already in sorted order,
    the differing positions otherwise. *)
Definition key_order_analysis (value : list (string * value))
  : option (list (nat * string * string)) :=
  let original_keys := keys value in
  let sorted_keys := sorted (keys value) in
  if keys_eqb original_keys sorted_keys then None
  else Some (key_diffs 0 original_keys sorted_keys).

(** ** Predicates of the statements *)

(** The order [sorted] sorts by. *)
Definition le_str (a b : string) : Prop := String.leb a b = true.

(** What the loop of [prune_empty_recursive] skips. *)
Definition is_empty_container (v : value) : bool :=
  is_empty_dict v || is_empty_list v.

(** One of the sixteen upper-case hexadecimal digits. *)
Definition is_upper_hex (c : ascii) : bool :=
  existsb (Ascii.eqb c) (list_ascii_of_string "0123456789ABCDEF").

(** Equality of two MACs as hexadecimal numbers: the letter case set aside. *)
Definition hex_equal (a b : string) : bool := String.eqb (upper a) (upper b).

(** No dictionary of the value, at any depth, has an entry whose value is an
    empty dictionary or an empty list. *)
Fixpoint no_empty_entry (v : value) : bool :=
  match v with
  | JList l => forallb no_empty_entry l
  | JDict d =>
      forallb (fun kv => negb (is_empty_container (snd kv)) && no_empty_entry (snd kv)) d
  | _ => true
  end.

(** A value that [json.dumps] and [value_to_json_chromium] write alike at the
    top level: not [None], and not a float that is [nan] or infinite. *)
Definition plain_top (v : value) : bool :=
  match v with
  | JNull => false
  | JFloat (FFinite _) => true
  | JFloat _ => false
  | _ => true
  end.

(** The lookup as the specification words it: a path that does not lead to a
    node is absent ([None]), which is not the node [JNull]. *)
Fixpoint resolve_parts (current : value) (parts : list string) : option value :=
  match parts with
  | [] => Some current
  | part :: parts' =>
      match current with
      | JDict d =>
          match dict_get d part with
          | Some v => resolve_parts v parts'
          | None => None
          end
      | _ => None
      end
  end.

Definition resolve (obj : value) (path : string) : option value :=
  resolve_parts obj (split_dot path).

(** ** Concrete values used below *)

(** The dictionary of the specification's scenario. *)
Definition v_xy : value := JDict [("x", JInt 1); ("y", JList [])].

Definition prefs_null_a : value := JDict [("a", JNull)].

Definition prefs_empty_key : value := JDict [("", JInt 7)].

Definition prefs_ab : value := JDict [("a", JDict [("b", v_xy)])].

Definition lower_mac_xy : string :=
  "56e2479ca9e27e86f321bae835623dcd8e5b1b67896530c76a04a56bdd1d553e".

Definition map_ab : list (string * value) := [("a", JInt 1); ("b", JInt 2)].
Definition map_ba : list (string * value) := [("b", JInt 2); ("a", JInt 1)].

Definition v_nested : value :=
  JDict [("b", JList [JDict []; JInt 2]); ("a", JDict [("z", JStr "q"); ("c", JBool true)])].

(** * Properties *)

(** ** Test vectors: the model against CPython's results *)

Example sha256_abc :
  hexlify (SHA256.digest (encode_utf8 "abc"))
  = "ba7816bf8f01cfea414140de5dae2223b00361a396177a9cb410ff61f20015ad".
Proof. vm_compute. reflexivity. Qed.

Example hmac_rfc4231_case2 :
  hexlify (HMAC.digest (encode_utf8 "Jefe") (encode_utf8 "what do ya want for nothing?"))
  = "5bdcc146bf60754e6a042426089575c75a003f089d2739839dec58b964ec3843".
Proof. vm_compute. reflexivity. Qed.

Example hmac_long_key :
  hexlify (HMAC.digest (repeat 107 100) (repeat 109 130))
  = "83aa675dc7494edede3012008691209d2d943d406b11343c97f3346279260da1".
Proof. vm_compute. reflexivity. Qed.

Example hmac_empty :
  hmac_sha256 "" ""
  = "B613679A0814D9EC772F95D778C35FC5FF1697C493715653C6C712144292C5AD".
Proof. vm_compute. reflexivity. Qed.

Example str_int_examples :
  (str_int 0, str_int 17, str_int (-5)) = ("0", "17", "-5").
Proof. reflexivity. Qed.

Example split_examples :
  (split_dot "a.b", split_dot "", split_dot "a.", split_dot ".a.")
  = (["a"; "b"], [""], ["a"; ""], [""; "a"; ""]).
Proof. reflexivity. Qed.

Example encode_basestring_escapes :
  encode_basestring
    ("a" +++ String dquote ("b" +++ String backslash
       ("c" +++ String "010"%char (String "001"%char "z"))))
  = quoted ("a\" +++ String dquote "b\\c\n\u0001z").
Proof. reflexivity. Qed.

Example json_dumps_nested :
  json_dumps (JList [JNull; JBool false; JInt (-3); JDict [("k", JList [])]; JStr "s"])
  = "[null,false,-3,{" +++ quoted "k" +++ ":[]}," +++ quoted "s" +++ "]".
Proof. reflexivity. Qed.

Example canonical_xy : value_to_json_chromium v_xy = "{" +++ quoted "x" +++ ":1}".
Proof. reflexivity. Qed.

Example mac_xy :
  calculate_mac "S" "D1" "a.b" v_xy
  = "56E2479CA9E27E86F321BAE835623DCD8E5B1B67896530C76A04A56BDD1D553E".
Proof. vm_compute. reflexivity. Qed.

Example calc_mac_xy :
  calc_mac "D1" "S" "a.b" v_xy
  = "B457B2CEF02C58BCE7E2F3C7964A5101C66FCE8AC880BE52196B7C1A5A0EAB64".
Proof. vm_compute. reflexivity. Qed.

(** ** Induction on values, through the nested lists *)

Section ValueInduction.

Variable P : value -> Prop.
Hypothesis HNull : P JNull.
Hypothesis HBool : forall b, P (JBool b).
Hypothesis HInt : forall z, P (JInt z).
Hypothesis HFloat : forall f, P (JFloat f).
Hypothesis HStr : forall s, P (JStr s).
Hypothesis HList : forall l, Forall P l -> P (JList l).
Hypothesis HDict : forall d, Forall (fun kv => P (snd kv)) d -> P (JDict d).

Fixpoint value_induction (v : value) : P v :=
  match v with
  | JNull => HNull
  | JBool b => HBool b
  | JInt z => HInt z
  | JFloat f => HFloat f
  | JStr s => HStr s
  | JList l =>
      HList l ((fix go (l : list value) : Forall P l :=
                  match l with
                  | [] => Forall_nil P
                  | x :: l' => Forall_cons x (value_induction x) (go l')
                  end) l)
  | JDict d =>
      HDict d ((fix go (d : list (string * value)) : Forall (fun kv => P (snd kv)) d :=
                  match d with
                  | [] => Forall_nil _
                  | kv :: d' => Forall_cons kv (value_induction (snd kv)) (go d')
                  end) d)
  end.

End ValueInduction.

(** ** The order on strings *)

Lemma ascii_compare_refl (a : ascii) : Ascii.compare a a = Eq.
Proof. unfold Ascii.compare. apply N.compare_refl. Qed.

Lemma ascii_compare_trans (a b c : ascii) (o : comparison) :
  Ascii.compare a b = o -> Ascii.compare b c = o -> Ascii.compare a c = o.
Proof.
  unfold Ascii.compare. intros H1 H2.
  destruct o.
  - apply N.compare_eq_iff in H1, H2. apply N.compare_eq_iff. congruence.
  - apply N.compare_lt_iff in H1, H2. apply N.compare_lt_iff.
    eapply N.lt_trans; eassumption.
  - apply N.compare_gt_iff in H1, H2. apply N.compare_gt_iff.
    eapply N.lt_trans; eassumption.
Qed.

Lemma string_compare_lt_trans (a b c : string) :
  String.compare a b = Lt -> String.compare b c = Lt -> String.compare a c = Lt.
Proof.
  revert b c. induction a as [|x a IH]; intros [|y b] [|z c]; simpl; try congruence.
  destruct (Ascii.compare x y) eqn:Exy; try discriminate;
  destruct (Ascii.compare y z) eqn:Eyz; try discriminate; intros H1 H2.
  - apply Ascii.compare_eq_iff in Exy, Eyz. subst.
    rewrite ascii_compare_refl. eauto.
  - apply Ascii.compare_eq_iff in Exy. subst. now rewrite Eyz.
  - apply Ascii.compare_eq_iff in Eyz. subst. now rewrite Exy.
  - now rewrite (ascii_compare_trans _ _ _ _ Exy Eyz).
Qed.

Lemma string_compare_refl (a : string) : String.compare a a = Eq.
Proof.
  induction a as [|x a IH]; simpl; [reflexivity|].
  now rewrite ascii_compare_refl.
Qed.

Lemma string_leb_refl (a : string) : String.leb a a = true.
Proof. unfold String.leb. now rewrite string_compare_refl. Qed.

Lemma string_leb_trans (a b c : string) :
  String.leb a b = true -> String.leb b c = true -> String.leb a c = true.
Proof.
  unfold String.leb.
  destruct (String.compare a b) eqn:Eab; try discriminate;
  destruct (String.compare b c) eqn:Ebc; try discriminate; intros _ _.
  - apply String.compare_eq_iff in Eab, Ebc. subst.
    now rewrite string_compare_refl.
  - apply String.compare_eq_iff in Eab. subst. now rewrite Ebc.
  - apply String.compare_eq_iff in Ebc. subst. now rewrite Eab.
  - now rewrite (string_compare_lt_trans _ _ _ Eab Ebc).
Qed.

Lemma string_leb_false (a b : string) :
  String.leb a b = false -> String.leb b a = true.
Proof.
  intros H. destruct (String.leb_total a b) as [E|E]; congruence.
Qed.

(** ** [sorted] *)

Lemma insert_key_perm (k : string) (l : list string) :
  Permutation (insert_key k l) (k :: l).
Proof.
  induction l as [|x l IH]; simpl; [reflexivity|].
  destruct (String.leb k x); [reflexivity|].
  rewrite IH. apply perm_swap.
Qed.

Lemma sorted_perm (l : list string) : Permutation (sorted l) l.
Proof.
  induction l as [|k l IH]; simpl; [reflexivity|].
  rewrite insert_key_perm. now constructor.
Qed.

Lemma sorted_In (l : list string) (k : string) : In k (sorted l) <-> In k l.
Proof.
  split; apply Permutation_in; [|symmetry]; apply sorted_perm.
Qed.

Lemma insert_key_sorted (k : string) (l : list string) :
  StronglySorted le_str l -> StronglySorted le_str (insert_key k l).
Proof.
  induction 1 as [|x l Hl IH Hx]; simpl.
  - repeat constructor.
  - destruct (String.leb k x) eqn:E.
    + constructor; [now constructor|].
      constructor; [exact E|].
      eapply Forall_impl; [|exact Hx].
      intros y Hy. eapply string_leb_trans; eassumption.
    + constructor; [exact IH|].
      eapply Permutation_Forall; [symmetry; apply insert_key_perm|].
      constructor; [|exact Hx]. now apply string_leb_false.
Qed.

Lemma sorted_sorted (l : list string) : StronglySorted le_str (sorted l).
Proof.
  induction l as [|k l IH]; simpl; [constructor|].
  now apply insert_key_sorted.
Qed.

(** Sorting a list that is in order leaves it as it is. *)
Lemma sorted_id (l : list string) : StronglySorted le_str l -> sorted l = l.
Proof.
  induction 1 as [|k l Hl IH Hk]; simpl; [reflexivity|].
  rewrite IH. destruct l as [|x l]; simpl; [reflexivity|].
  inversion Hk as [|? ? Hkx _]; subst. unfold le_str in Hkx. now rewrite Hkx.
Qed.

Lemma sorted_unique (l1 l2 : list string) :
  StronglySorted le_str l1 -> StronglySorted le_str l2 ->
  Permutation l1 l2 -> l1 = l2.
Proof.
  intros H1. revert l2.
  induction H1 as [|a l1 Hl1 IH Ha]; intros l2 H2 HP.
  - apply Permutation_nil in HP. now subst.
  - destruct H2 as [|b l2 Hl2 Hb].
    + symmetry in HP. apply Permutation_nil in HP. discriminate.
    + assert (a = b) as ->.
      { assert (In a (b :: l2)) as Ia
          by (eapply Permutation_in; [exact HP|now left]).
        assert (In b (a :: l1)) as Ib
          by (eapply Permutation_in; [symmetry; exact HP|now left]).
        destruct Ia as [->|Ia]; [reflexivity|].
        destruct Ib as [->|Ib]; [reflexivity|].
        rewrite Forall_forall in Ha, Hb.
        apply String.leb_antisym; [now apply Ha | now apply Hb]. }
      f_equal. apply IH; [exact Hl2|].
      eapply Permutation_cons_inv; exact HP.
Qed.

(** [sorted] depends only on the elements, not on their order. *)
Lemma sorted_permutation (l1 l2 : list string) :
  Permutation l1 l2 -> sorted l1 = sorted l2.
Proof.
  intros HP. apply sorted_unique; try apply sorted_sorted.
  rewrite sorted_perm, HP. symmetry. apply sorted_perm.
Qed.

Lemma filter_sorted (f : string -> bool) (l : list string) :
  StronglySorted le_str l -> StronglySorted le_str (filter f l).
Proof.
  induction 1 as [|k l Hl IH Hk]; simpl; [constructor|].
  destruct (f k); [|exact IH].
  constructor; [exact IH|].
  rewrite Forall_forall in *. intros x Hx.
  apply filter_In in Hx. now apply Hk.
Qed.

(** ** Dictionary lookup *)

Lemma nodupb_NoDup (l : list string) : nodupb l = true <-> NoDup l.
Proof.
  induction l as [|k l IH]; simpl.
  - split; [constructor|reflexivity].
  - rewrite andb_true_iff, negb_true_iff, IH. split.
    + intros [Hk Hl]. constructor; [|exact Hl].
      intros Hin. assert (existsb (String.eqb k) l = true); [|congruence].
      apply existsb_exists. exists k. split; [exact Hin|apply String.eqb_refl].
    + inversion 1 as [|? ? Hk Hl]; subst. split; [|exact Hl].
      destruct (existsb (String.eqb k) l) eqn:E; [|reflexivity].
      apply existsb_exists in E. destruct E as [x [Hx Ex]].
      apply String.eqb_eq in Ex. now subst.
Qed.

Lemma dict_get_In (d : list (string * value)) (k : string) (v : value) :
  dict_get d k = Some v -> In (k, v) d.
Proof.
  induction d as [|[k' v'] d IH]; simpl; [discriminate|].
  destruct (String.eqb_spec k k') as [->|Hne].
  - intros [= ->]. now left.
  - intros H. right. now apply IH.
Qed.

Lemma dict_get_None (d : list (string * value)) (k : string) :
  dict_get d k = None <-> ~ In k (keys d).
Proof.
  induction d as [|[k' v'] d IH]; simpl; [tauto|].
  destruct (String.eqb_spec k k') as [->|Hne].
  - split; [discriminate|]. intros H. exfalso. apply H. now left.
  - rewrite IH. split; [intros H [E|I]; [congruence|tauto] | tauto].
Qed.

Lemma In_dict_get (d : list (string * value)) (k : string) (v : value) :
  NoDup (keys d) -> In (k, v) d -> dict_get d k = Some v.
Proof.
  induction d as [|[k' v'] d IH]; simpl; [tauto|].
  intros HN. inversion HN as [|? ? Hk Hd]; subst.
  intros [[= -> ->]|Hin].
  - now rewrite String.eqb_refl.
  - destruct (String.eqb_spec k k') as [->|Hne]; [|now apply IH].
    exfalso. apply Hk. unfold keys. change k' with (fst (k', v)). now apply in_map.
Qed.

(** Lookup does not depend on the insertion order of a dictionary. *)
Lemma dict_get_permutation (d1 d2 : list (string * value)) (k : string) :
  NoDup (keys d1) -> Permutation d1 d2 -> dict_get d1 k = dict_get d2 k.
Proof.
  intros HN HP.
  assert (NoDup (keys d2)) as HN2
    by (eapply Permutation_NoDup; [apply Permutation_map; exact HP|exact HN]).
  destruct (dict_get d1 k) as [v|] eqn:E1.
  - apply dict_get_In in E1. symmetry. apply In_dict_get; [exact HN2|].
    eapply Permutation_in; eassumption.
  - destruct (dict_get d2 k) as [v|] eqn:E2; [|reflexivity].
    apply dict_get_In in E2. apply dict_get_None in E1. exfalso. apply E1.
    unfold keys. change k with (fst (k, v)). apply in_map.
    eapply Permutation_in; [symmetry; exact HP|exact E2].
Qed.

(** ** [prune_empty_recursive] *)

Lemma prune_loop_ext (f g : string -> value) (ks : list string) :
  (forall k, In k ks -> f k = g k) -> prune_loop f ks = prune_loop g ks.
Proof.
  induction ks as [|k ks IH]; simpl; [reflexivity|].
  intros H. rewrite <- (H k) by now left.
  rewrite IH by (intros; apply H; now right). reflexivity.
Qed.

Lemma dict_item_map (f : value -> value) (d : list (string * value)) (k : string) :
  f JNull = JNull ->
  dict_item (map (fun kv => (fst kv, f (snd kv))) d) k = f (dict_item d k).
Proof.
  intros Hf. unfold dict_item.
  induction d as [|[k' v'] d IH]; simpl; [now rewrite Hf|].
  destruct (String.eqb k k'); [reflexivity|exact IH].
Qed.

(** The dictionary branch as the source has it: the keys in sorted order,
    each looked up and pruned, the empty results skipped. *)
Lemma prune_empty_recursive_dict (d : list (string * value)) :
  prune_empty_recursive (JDict d)
  = JDict (prune_loop (fun k => prune_empty_recursive (dict_item d k)) (sorted (keys d))).
Proof.
  simpl. f_equal. apply prune_loop_ext. intros k _.
  rewrite <- (dict_item_map prune_empty_recursive) by reflexivity.
  f_equal. clear k.
  induction d as [|[k v] d IH]; simpl; [reflexivity|]. now rewrite IH.
Qed.

Lemma prune_loop_filter (f : string -> value) (ks : list string) :
  prune_loop f ks
  = map (fun k => (k, f k)) (filter (fun k => negb (is_empty_container (f k))) ks).
Proof.
  induction ks as [|k ks IH]; simpl; [reflexivity|].
  unfold is_empty_container at 1.
  destruct (is_empty_dict (f k)); simpl; [exact IH|].
  destruct (is_empty_list (f k)); simpl; [exact IH|].
  now rewrite IH.
Qed.

Lemma prune_loop_In (f : string -> value) (ks : list string) (k : string) (v : value) :
  In (k, v) (prune_loop f ks)
  <-> In k ks /\ v = f k /\ is_empty_dict v = false /\ is_empty_list v = false.
Proof.
  rewrite prune_loop_filter, in_map_iff. split.
  - intros [k' [[= -> <-] Hin]]. apply filter_In in Hin. destruct Hin as [Hin Hne].
    apply negb_true_iff, orb_false_iff in Hne. tauto.
  - intros [Hin [-> [H1 H2]]]. exists k. split; [reflexivity|].
    apply filter_In. split; [exact Hin|].
    unfold is_empty_container. now rewrite H1, H2.
Qed.

Lemma map_fst_pairs {A} (g : string -> A) (l : list string) :
  map fst (map (fun k => (k, g k)) l) = l.
Proof. induction l as [|k l IH]; simpl; [reflexivity|]. now rewrite IH. Qed.

Lemma dict_get_pairs (g : string -> value) (l : list string) (k : string) :
  In k l -> dict_get (map (fun x => (x, g x)) l) k = Some (g k).
Proof.
  induction l as [|x l IH]; simpl; [tauto|].
  destruct (String.eqb_spec k x) as [->|Hne]; [reflexivity|].
  intros [E|Hin]; [congruence|now apply IH].
Qed.

Lemma filter_filter_same {A} (p : A -> bool) (l : list A) :
  filter p (filter p l) = filter p l.
Proof.
  induction l as [|x l IH]; simpl; [reflexivity|].
  destruct (p x) eqn:E; simpl; [now rewrite E, IH|exact IH].
Qed.

Lemma Forall_dict_item (P : value -> Prop) (d : list (string * value)) (k : string) :
  P JNull -> Forall (fun kv => P (snd kv)) d -> P (dict_item d k).
Proof.
  intros HN HF. unfold dict_item.
  destruct (dict_get d k) as [v|] eqn:E; [|exact HN].
  apply dict_get_In in E. rewrite Forall_forall in HF. exact (HF _ E).
Qed.

(** C10. The rewrite done by [prune_empty_recursive] (prune the empty
    containers out of every dictionary, sort every dictionary's keys) is
    idempotent: on every value, applying it twice gives what applying it
    once gives. *)
Theorem prune_empty_recursive_idempotent (v : value) :
  prune_empty_recursive (prune_empty_recursive v) = prune_empty_recursive v.
Proof.
  induction v as [| | | | |l IH|d IH] using value_induction; try reflexivity.
  - simpl. f_equal. rewrite map_map. apply map_ext_Forall. exact IH.
  - rewrite (prune_empty_recursive_dict d).
    set (f := fun k => prune_empty_recursive (dict_item d k)).
    set (ks := sorted (keys d)).
    rewrite prune_empty_recursive_dict. f_equal.
    rewrite (prune_loop_filter f ks).
    set (ks' := filter (fun k => negb (is_empty_container (f k))) ks).
    unfold keys. rewrite map_fst_pairs.
    assert (sorted ks' = ks') as ->
      by (apply sorted_id, filter_sorted, sorted_sorted).
    rewrite (prune_loop_ext _ f).
    + rewrite prune_loop_filter. unfold ks'. now rewrite filter_filter_same.
    + intros k Hk. unfold dict_item. rewrite dict_get_pairs by exact Hk.
      unfold f. apply (Forall_dict_item (fun x => prune_empty_recursive (prune_empty_recursive x)
                                                  = prune_empty_recursive x));
        [reflexivity|exact IH].
Qed.

(** C3. Pruning acts on dictionary entries only.  The pruned form of a
    dictionary holds exactly the entries [k: prune(obj[k])] whose pruned value
    is neither an empty dictionary nor an empty list (the test comes after the
    recursive call, so a value emptied by its own pruning goes too), and that
    form is what the canonical string is written from.  The pruned form of a
    list has every element of the list, pruned, at its place: an element that
    is an empty dictionary or an empty list stays in the list as it is. *)
Theorem prune_drops_map_entries_keeps_list_elements
  (d : list (string * value)) (l : list value) :
  (exists d',
      prune_empty_recursive (JDict d) = JDict d'
      /\ value_to_json_chromium (JDict d) = json_dumps (JDict d')
      /\ forall k v',
          In (k, v') d'
          <-> In k (keys d)
              /\ v' = prune_empty_recursive (dict_item d k)
              /\ is_empty_dict v' = false /\ is_empty_list v' = false)
  /\ prune_empty_recursive (JList l) = JList (map prune_empty_recursive l)
  /\ length (map prune_empty_recursive l) = length l
  /\ (l <> [] ->
      value_to_json_chromium (JList l) = json_dumps (JList (map prune_empty_recursive l)))
  /\ forall i e,
      nth_error l i = Some e -> is_empty_container e = true ->
      nth_error (map prune_empty_recursive l) i = Some e.
Proof.
  split; [|split; [|split; [|split]]].
  - eexists. split; [apply prune_empty_recursive_dict|]. split.
    + unfold value_to_json_chromium. now rewrite prune_empty_recursive_dict.
    + intros k v'. rewrite prune_loop_In, sorted_In. reflexivity.
  - reflexivity.
  - apply length_map.
  - intros Hl. destruct l as [|x l]; [congruence|reflexivity].
  - intros i e Hi He. rewrite nth_error_map, Hi. simpl. f_equal.
    destruct e as [| | | | |[|? ?]|[|? ?]]; try discriminate; reflexivity.
Qed.

(** An entry emptied by its own pruning is dropped by its parent; the same
    value as a list element is kept, emptied. *)
Example prune_bottom_up :
  prune_empty_recursive
    (JDict [("b", JDict [("c", JList [])]); ("a", JList [JDict [("c", JList [])]; JList []])])
  = JDict [("a", JList [JDict []; JList []])].
Proof. reflexivity. Qed.

(** ** The MAC *)

Lemma encode_utf8_app (a b : string) :
  encode_utf8 (a +++ b) = encode_utf8 a ++ encode_utf8 b.
Proof.
  unfold encode_utf8. induction a as [|c a IH]; simpl; [reflexivity|].
  now rewrite IH.
Qed.

Lemma be_bytes_length (n : nat) (x : Z) : length (SHA256.be_bytes n x) = n.
Proof. induction n as [|n IH]; simpl; [reflexivity|]. now rewrite IH. Qed.

Lemma sha256_digest_length (msg : list Z) : length (SHA256.digest msg) = 32%nat.
Proof.
  unfold SHA256.digest, SHA256.state_bytes.
  repeat rewrite length_app. repeat rewrite be_bytes_length. reflexivity.
Qed.

Lemma hmac_digest_length (key msg : list Z) : length (HMAC.digest key msg) = 32%nat.
Proof. apply sha256_digest_length. Qed.

Lemma hexlify_length (bs : list Z) : String.length (hexlify bs) = (2 * length bs)%nat.
Proof. induction bs as [|b bs IH]; simpl; [reflexivity|]. rewrite IH. lia. Qed.

Lemma str_map_length (f : ascii -> ascii) (s : string) :
  String.length (str_map f s) = String.length s.
Proof. induction s as [|c s IH]; simpl; [reflexivity|]. now rewrite IH. Qed.

Lemma upper_hex_digit (n : Z) : is_upper_hex (upper_char (hex_digit n)) = true.
Proof.
  destruct n as [|p|p]; [reflexivity| |reflexivity].
  do 5 (try destruct p as [p|p|]); reflexivity.
Qed.

Lemma upper_hexlify_hex (bs : list Z) :
  forallb is_upper_hex (list_ascii_of_string (upper (hexlify bs))) = true.
Proof.
  induction bs as [|b bs IH]; [reflexivity|].
  cbn [hexlify upper str_map list_ascii_of_string forallb].
  rewrite !upper_hex_digit. exact IH.
Qed.

(** C1. [calculate_mac] returns the HMAC-SHA256, keyed by the bytes of the
    seed, of the bytes of the device id followed by those of the path and
    those of the canonical string of the value, written as the 64 upper-case
    hexadecimal digits of all 32 bytes of the tag. *)
Theorem calculate_mac_is_hmac_sha256 (seed device_id path : string) (v : value) :
  calculate_mac seed device_id path v
  = upper (hexlify (HMAC.digest (encode_utf8 seed)
                      (encode_utf8 device_id ++ encode_utf8 path
                       ++ encode_utf8 (value_to_json_chromium v))))
  /\ String.length (calculate_mac seed device_id path v) = 64%nat
  /\ forallb is_upper_hex (list_ascii_of_string (calculate_mac seed device_id path v)) = true.
Proof.
  unfold calculate_mac, hmac_sha256. rewrite !encode_utf8_app.
  split; [reflexivity|]. split.
  - unfold upper. rewrite str_map_length, hexlify_length, hmac_digest_length. reflexivity.
  - apply upper_hexlify_hex.
Qed.

(** C2. The scenario of the specification: with seed [S], device id [D1] and
    path [a.b], the dictionary with [x] bound to 1 and [y] to the empty list
    has the canonical string of the dictionary with [x] alone, and its MAC is
    the HMAC-SHA256 keyed by [S] of [D1a.b] followed by that string, in
    upper-case hexadecimal. *)
Theorem scenario_pruned_mac :
  value_to_json_chromium v_xy = "{" +++ quoted "x" +++ ":1}"
  /\ calculate_mac "S" "D1" "a.b" v_xy
     = hmac_sha256 "S" ("D1a.b{" +++ quoted "x" +++ ":1}")
  /\ calculate_mac "S" "D1" "a.b" v_xy
     = "56E2479CA9E27E86F321BAE835623DCD8E5B1B67896530C76A04A56BDD1D553E".
Proof.
  split; [reflexivity|]. split; [reflexivity|]. vm_compute. reflexivity.
Qed.





(** ** Path lookup *)

Lemma walk_null (parts : list string) : walk JNull parts = JNull.
Proof. destruct parts; reflexivity. Qed.

Lemma walk_resolve_parts (parts : list string) (current : value) :
  walk current parts
  = match resolve_parts current parts with Some v => v | None => JNull end.
Proof.
  revert current. induction parts as [|part parts IH]; intros current; [reflexivity|].
  destruct current as [| | | | | |d]; try reflexivity.
  simpl. destruct (dict_get d part) as [v|]; [apply IH|apply walk_null].
Qed.

(** C4, as stated, fails: in a snapshot that binds [a] to [None] and has no
    [b], the path [a] leads to the value [None] and the path [b] to nothing,
    and [get_value_at_path] returns the same for both. *)
Lemma absent_conflated_with_null :
  resolve prefs_null_a "a" = Some JNull
  /\ resolve prefs_null_a "b" = None
  /\ get_value_at_path prefs_null_a "a" = JNull
  /\ get_value_at_path prefs_null_a "b" = JNull.
Proof. repeat split; reflexivity. Qed.

(** C4, amended. [get_value_at_path] returns the value the path leads to when
    every segment exists, and [None] when one does not: an absent value is
    reported as [None], the same result as for a path whose value is [None],
    and nothing is raised. *)
Theorem get_value_at_path_absent_is_none (obj : value) (path : string) :
  get_value_at_path obj path
  = match resolve obj path with
    | Some v => v
    | None => JNull
    end.
Proof. apply walk_resolve_parts. Qed.

(** C9, as stated, fails: the empty path is looked up as the key that is the
    empty string, and a MAC is computed for it like for any other path. *)
Lemma empty_path_not_rejected :
  get_value_at_path prefs_empty_key "" = JInt 7
  /\ calculate_mac "S" "D1" "" (JInt 7) = hmac_sha256 "S" "D17"
  /\ calculate_mac "S" "D1" "" (JInt 7)
     = "9A45B2658A4FF0B848BD3BC5A0D1D964C6C6EAF92A20BCDB79B184D0221C7CA8".
Proof.
  split; [reflexivity|]. split; [reflexivity|]. vm_compute. reflexivity.
Qed.

(** C9, amended. The empty path is not rejected.  [get_value_at_path] takes it
    as the single segment that is the empty string: the entry under the empty
    key when the snapshot is a dictionary that has one, [None] otherwise; and
    [calculate_mac] returns the MAC of the device id followed directly by the
    canonical string. *)
Theorem empty_path_is_empty_segment (obj : value) (seed device_id : string) (v : value) :
  get_value_at_path obj ""
  = match obj with
    | JDict d => match dict_get d "" with Some x => x | None => JNull end
    | _ => JNull
    end
  /\ calculate_mac seed device_id "" v
     = hmac_sha256 seed (device_id +++ value_to_json_chromium v).
Proof.
  split; [|reflexivity].
  destruct obj; reflexivity.
Qed.

(** ** The verification loop *)

Lemma upper_char_idempotent (c : ascii) : upper_char (upper_char c) = upper_char c.
Proof. destruct c as [[] [] [] [] [] [] [] []]; reflexivity. Qed.

Lemma upper_idempotent (s : string) : upper (upper s) = upper s.
Proof.
  unfold upper. induction s as [|c s IH]; simpl; [reflexivity|].
  now rewrite upper_char_idempotent, IH.
Qed.

Lemma calculate_mac_upper (seed device_id path : string) (v : value) :
  upper (calculate_mac seed device_id path v) = calculate_mac seed device_id path v.
Proof. unfold calculate_mac, hmac_sha256. apply upper_idempotent. Qed.

(** C6, as stated, fails: a record whose expected MAC is the computed one in
    lower case is equal to it as a hexadecimal number and is counted as failed. *)
Lemma lower_case_expected_mac_fails :
  hex_equal (calculate_mac "S" "D1" "a.b" (get_value_at_path prefs_ab "a.b")) lower_mac_xy = true
  /\ record_passes "D1" "S" prefs_ab "a.b" lower_mac_xy = false
  /\ passed (main_loop "D1" "S" prefs_ab "" [("a.b", lower_mac_xy)] (mkReport 0 0 [])) = 0%nat
  /\ failed (main_loop "D1" "S" prefs_ab "" [("a.b", lower_mac_xy)] (mkReport 0 0 [])) = 1%nat.
Proof. vm_compute. repeat split; reflexivity. Qed.

(** C6, amended. The expected MAC is compared as a string, case included: a
    record passes exactly when its expected MAC is character for character
    the computed MAC, which is in upper case; an expected MAC that has a
    lower-case letter never passes. *)
Theorem record_passes_iff_same_string
  (DEVICE_ID FILE_SEED : string) (secure_prefs : value) (path expected_mac : string) :
  (record_passes DEVICE_ID FILE_SEED secure_prefs path expected_mac = true
   <-> expected_mac
       = calculate_mac FILE_SEED DEVICE_ID path (get_value_at_path secure_prefs path))
  /\ (upper expected_mac <> expected_mac ->
      record_passes DEVICE_ID FILE_SEED secure_prefs path expected_mac = false).
Proof.
  unfold record_passes. split.
  - rewrite String.eqb_eq. split; congruence.
  - intros Hne. apply String.eqb_neq. intros E. apply Hne.
    rewrite <- E. apply calculate_mac_upper.
Qed.

(** ** [sort_dict_recursive] and key order *)

Lemma sort_dict_recursive_dict (d : list (string * value)) :
  sort_dict_recursive (JDict d)
  = JDict (sorted_items (map (fun kv => (fst kv, sort_dict_recursive (snd kv))) d)).
Proof.
  simpl. do 2 f_equal.
  induction d as [|[k v] d IH]; simpl; [reflexivity|]. now rewrite IH.
Qed.

Lemma keys_map_snd (f : value -> value) (d : list (string * value)) :
  keys (map (fun kv => (fst kv, f (snd kv))) d) = keys d.
Proof. unfold keys. rewrite map_map. reflexivity. Qed.

Lemma insert_item_pairs (h h' : string -> value) (k : string) (v : value) (l : list string) :
  h' k = v -> (forall x, In x l -> h' x = h x) ->
  insert_item (k, v) (map (fun x => (x, h x)) l)
  = map (fun x => (x, h' x)) (insert_key k l).
Proof.
  intros Hk. induction l as [|x l IH]; intros Hl; simpl.
  - now rewrite Hk.
  - destruct (String.leb k x); simpl.
    + rewrite Hk, (Hl x) by now left. do 2 f_equal.
      apply map_ext_in. intros y Hy. rewrite Hl by now right. reflexivity.
    + rewrite (Hl x) by now left. f_equal. apply IH.
      intros y Hy. apply Hl. now right.
Qed.

(** With distinct keys, sorting the items is sorting the keys and looking
    each one up. *)
Lemma sorted_items_by_keys (d : list (string * value)) :
  NoDup (keys d) ->
  sorted_items d = map (fun k => (k, dict_item d k)) (sorted (keys d)).
Proof.
  induction d as [|[k v] d IH]; simpl; [reflexivity|].
  intros HN. inversion HN as [|? ? Hk Hd]; subst.
  rewrite IH by exact Hd. apply insert_item_pairs.
  - unfold dict_item. simpl. now rewrite String.eqb_refl.
  - intros x Hx. apply (proj1 (sorted_In _ _)) in Hx. unfold dict_item. simpl.
    destruct (String.eqb_spec x k) as [->|Hne]; [|reflexivity].
    exfalso. apply Hk. exact Hx.
Qed.

Lemma dict_item_permutation (d1 d2 : list (string * value)) (k : string) :
  NoDup (keys d1) -> Permutation d1 d2 -> dict_item d1 k = dict_item d2 k.
Proof.
  intros HN HP. unfold dict_item. now rewrite (dict_get_permutation d1 d2 k HN HP).
Qed.

Lemma sorted_items_permutation (d1 d2 : list (string * value)) :
  NoDup (keys d1) -> Permutation d1 d2 -> sorted_items d1 = sorted_items d2.
Proof.
  intros HN HP.
  assert (Permutation (keys d1) (keys d2)) as HK by (apply Permutation_map; exact HP).
  rewrite !sorted_items_by_keys;
    [|eapply Permutation_NoDup; eassumption|exact HN].
  rewrite (sorted_permutation _ _ HK).
  apply map_ext. intros k. f_equal. now apply dict_item_permutation.
Qed.

(** C7. Two dictionaries with the same entries in different insertion orders
    have the same canonical string under the verifier's canonicalisation and
    under the search's sorted serialisation; written without sorting, the two
    dictionaries of the scenario (a then b, b then a) give different strings. *)
Theorem key_order_independence (m1 m2 : list (string * value)) :
  NoDup (keys m1) -> Permutation m1 m2 ->
  value_to_json_chromium (JDict m1) = value_to_json_chromium (JDict m2)
  /\ json_dumps (sort_dict_recursive (JDict m1)) = json_dumps (sort_dict_recursive (JDict m2))
  /\ Permutation map_ab map_ba
  /\ String.eqb (json_dumps (JDict map_ab)) (json_dumps (JDict map_ba)) = false.
Proof.
  intros HN HP. split; [|split; [|split]].
  - unfold value_to_json_chromium. rewrite !prune_empty_recursive_dict.
    rewrite (sorted_permutation (keys m1) (keys m2)) by (apply Permutation_map; exact HP).
    do 2 f_equal. apply prune_loop_ext. intros k _.
    now rewrite (dict_item_permutation m1 m2 k HN HP).
  - rewrite !sort_dict_recursive_dict. do 2 f_equal.
    apply sorted_items_permutation.
    + now rewrite keys_map_snd.
    + apply Permutation_map. exact HP.
  - apply perm_swap.
  - reflexivity.
Qed.

Lemma key_order_independence_witness :
  NoDup (keys map_ab) /\ Permutation map_ab map_ba
  /\ value_to_json_chromium (JDict map_ab) = value_to_json_chromium (JDict map_ba)
  /\ json_dumps (sort_dict_recursive (JDict map_ab))
     = json_dumps (sort_dict_recursive (JDict map_ba)).
Proof.
  assert (NoDup (keys map_ab)) as HN.
  { apply nodupb_NoDup. reflexivity. }
  assert (Permutation map_ab map_ba) as HP by apply perm_swap.
  split; [exact HN|]. split; [exact HP|].
  destruct (key_order_independence map_ab map_ba HN HP) as [H1 [H2 _]].
  split; [exact H1|exact H2].
Defined.

(** ** The search against the verifier *)

Lemma insert_item_not_nil (kv : string * value) (l : list (string * value)) :
  insert_item kv l <> [].
Proof. destruct l; simpl; [|destruct (String.leb _ _)]; discriminate. Qed.

Lemma sort_dict_recursive_empty (v : value) :
  is_empty_container (sort_dict_recursive v) = is_empty_container v.
Proof.
  destruct v as [| | | | |[|x l]|[|[k x] d]]; try reflexivity.
  rewrite sort_dict_recursive_dict. simpl.
  match goal with |- context [insert_item ?a ?b] =>
    pose proof (insert_item_not_nil a b); destruct (insert_item a b) end;
    [congruence|reflexivity].
Qed.

Lemma filter_all {A} (p : A -> bool) (l : list A) :
  (forall x, In x l -> p x = true) -> filter p l = l.
Proof.
  induction l as [|x l IH]; simpl; intros H; [reflexivity|].
  rewrite (H x) by now left. f_equal. apply IH. intros; apply H; now right.
Qed.

Lemma prune_empty_recursive_entries (d : list (string * value)) :
  prune_empty_recursive (JDict d)
  = JDict (prune_loop
             (dict_item (map (fun kv => (fst kv, prune_empty_recursive (snd kv))) d))
             (sorted (keys d))).
Proof.
  rewrite prune_empty_recursive_dict. f_equal. apply prune_loop_ext.
  intros k _. symmetry. now apply dict_item_map.
Qed.

(** Where nothing is to be pruned, pruning is sorting. *)
Lemma prune_is_sort (v : value) :
  wf v = true -> no_empty_entry v = true ->
  prune_empty_recursive v = sort_dict_recursive v.
Proof.
  induction v as [| | | | |l IH|d IH] using value_induction; try reflexivity.
  - simpl. rewrite !forallb_forall. intros Hw Hn. f_equal.
    apply map_ext_in. intros x Hx. rewrite Forall_forall in IH. auto.
  - cbn [wf no_empty_entry]. rewrite andb_true_iff, nodupb_NoDup, !forallb_forall.
    intros [HN Hw] Hn.
    rewrite prune_empty_recursive_entries, sort_dict_recursive_dict.
    assert (map (fun kv => (fst kv, prune_empty_recursive (snd kv))) d
            = map (fun kv => (fst kv, sort_dict_recursive (snd kv))) d) as ->.
    { apply map_ext_in. intros kv Hkv. f_equal. rewrite Forall_forall in IH.
      apply IH; [exact Hkv|now apply Hw|].
      specialize (Hn kv Hkv). apply andb_true_iff in Hn. tauto. }
    set (se := map (fun kv => (fst kv, sort_dict_recursive (snd kv))) d).
    f_equal. rewrite sorted_items_by_keys by (unfold se; now rewrite keys_map_snd).
    unfold se at 3. rewrite keys_map_snd.
    rewrite prune_loop_filter. f_equal. apply filter_all.
    intros k Hk. apply (proj1 (sorted_In _ _)) in Hk.
    unfold se. rewrite dict_item_map by reflexivity.
    rewrite sort_dict_recursive_empty.
    unfold dict_item. destruct (dict_get d k) as [v|] eqn:E.
    + apply dict_get_In in E. specialize (Hn _ E). apply andb_true_iff in Hn. tauto.
    + apply dict_get_None in E. contradiction.
Qed.

(** C5, as stated, fails: for the dictionary of the scenario the search
    serialises the empty list that the verifier prunes, and for [None] it
    writes [null] where the verifier writes nothing; the MACs differ. *)
Lemma search_mac_differs_from_verifier :
  String.eqb (calc_mac "D1" "S" "a.b" v_xy) (calculate_mac "S" "D1" "a.b" v_xy) = false
  /\ String.eqb (calc_mac "D1" "S" "a.b" JNull) (calculate_mac "S" "D1" "a.b" JNull) = false.
Proof. vm_compute. split; reflexivity. Qed.

(** C5, amended. [calc_mac] of the search sorts the keys and serialises; it
    does not prune and has no top-level rules of its own.  For a value that
    is not [None] nor a non-finite float and in which no dictionary entry, at
    any depth, is an empty dictionary or an empty list, it computes the MAC
    that [calculate_mac] of the verifier computes for the same seed, device id
    and path. *)
Theorem search_mac_agrees_without_pruning
  (DEVICE_ID FILE_SEED PATH : string) (v : value) :
  wf v = true -> no_empty_entry v = true -> plain_top v = true ->
  calc_mac DEVICE_ID FILE_SEED PATH v = calculate_mac FILE_SEED DEVICE_ID PATH v.
Proof.
  intros Hw Hn Hp. unfold calc_mac, calculate_mac. do 3 f_equal.
  destruct v as [| [|] | | [r| | |] | |[|x l]|d]; try discriminate; try reflexivity.
  - unfold value_to_json_chromium. cbn [length Nat.eqb].
    now rewrite prune_is_sort.
  - unfold value_to_json_chromium. now rewrite prune_is_sort.
Qed.

Lemma search_mac_agrees_without_pruning_witness :
  wf v_nested = true /\ no_empty_entry v_nested = true /\ plain_top v_nested = true
  /\ calc_mac "D1" "S" "a.b" v_nested = calculate_mac "S" "D1" "a.b" v_nested.
Proof.
  split; [reflexivity|]. split; [reflexivity|]. split; [reflexivity|].
  apply (search_mac_agrees_without_pruning "D1" "S" "a.b" v_nested); reflexivity.
Defined.

(** * Further properties of the scripts *)

(** ** Predicates of the statements *)

(** The string has no [.] in it. *)
Definition dot_free (s : string) : bool :=
  forallb (fun c => negb (Ascii.eqb c ".")) (list_ascii_of_string s).

(** The list of keys is in order, as [sorted] would leave it. *)
Fixpoint sortedb (l : list string) : bool :=
  match l with
  | [] => true
  | k :: l' =>
      match l' with
      | [] => true
      | k' :: _ => String.leb k k' && sortedb l'
      end
  end.

(** Every dictionary of the value, at any depth, has its keys in order. *)
Fixpoint deep_sorted (v : value) : bool :=
  match v with
  | JList l => forallb deep_sorted l
  | JDict d => sortedb (map fst d) && forallb (fun kv => deep_sorted (snd kv)) d
  | _ => true
  end.

(** ** Paths *)

Lemma split_dot_not_nil (s : string) : split_dot s <> [].
Proof.
  induction s as [|c s IH]; simpl; [discriminate|].
  destruct (Ascii.eqb c "."); [discriminate|].
  destruct (split_dot s); discriminate.
Qed.

Lemma split_dot_app_dot (p q : string) :
  split_dot (p +++ "." +++ q) = split_dot p ++ split_dot q.
Proof.
  change ("." +++ q) with (String "."%char q).
  induction p as [|c p IH]; [reflexivity|].
  cbn [String.append split_dot]. rewrite IH.
  destruct (Ascii.eqb c "."); [reflexivity|].
  pose proof (split_dot_not_nil p) as Hp.
  destruct (split_dot p); [congruence|reflexivity].
Qed.

Lemma split_dot_free (s : string) : dot_free s = true -> split_dot s = [s].
Proof.
  unfold dot_free. induction s as [|c s IH]; simpl; [reflexivity|].
  rewrite andb_true_iff, negb_true_iff. intros [Hc Hs].
  rewrite Hc, IH by exact Hs. reflexivity.
Qed.

Lemma split_dot_parts_free (s : string) : forallb dot_free (split_dot s) = true.
Proof.
  induction s as [|c s IH]; [reflexivity|].
  cbn [split_dot]. destruct (Ascii.eqb c ".") eqn:Ec.
  - cbn [forallb]. now rewrite IH.
  - pose proof (split_dot_not_nil s) as Hs.
    destruct (split_dot s) as [|h t]; [congruence|].
    cbn [forallb] in *. apply andb_true_iff in IH. destruct IH as [Hh Ht].
    rewrite Ht, andb_true_r. unfold dot_free in *. simpl. now rewrite Ec, Hh.
Qed.

Lemma split_dot_join (parts : list string) :
  parts <> [] -> forallb dot_free parts = true ->
  split_dot (join "." parts) = parts.
Proof.
  induction parts as [|p parts IH]; [congruence|].
  intros _ Hf. cbn [forallb] in Hf. apply andb_true_iff in Hf. destruct Hf as [Hp Hf].
  destruct parts as [|q parts].
  - now apply split_dot_free.
  - change (join "." (p :: q :: parts)) with (p +++ "." +++ join "." (q :: parts)).
    rewrite split_dot_app_dot, split_dot_free by exact Hp.
    rewrite IH by (congruence || exact Hf). reflexivity.
Qed.

Lemma walk_app (a b : list string) (obj : value) :
  walk obj (a ++ b) = walk (walk obj a) b.
Proof.
  revert obj. induction a as [|p a IH]; intros obj; [reflexivity|].
  destruct obj; cbn [app walk]; try (now rewrite walk_null).
  apply IH.
Qed.

(** X1. Paths compose: looking up [p.q] is looking up [q] in what the lookup
    of [p] returns. *)
Theorem get_value_at_path_compose (obj : value) (p q : string) :
  get_value_at_path obj (p +++ "." +++ q)
  = get_value_at_path (get_value_at_path obj p) q.
Proof.
  unfold get_value_at_path. rewrite split_dot_app_dot. apply walk_app.
Qed.

(** X2. The verifier and the search read the same node: when the chain of
    subscripts [obj[s1][s2]...[sn]] of find-mac-keys.py succeeds with [v] and
    no [si] has a dot in it, [get_value_at_path] of analyze-json.py returns
    [v] for the path [s1.s2. ... .sn]. *)
Theorem get_value_at_path_subscripts (obj : value) (parts : list string) (v : value) :
  parts <> [] -> forallb dot_free parts = true ->
  resolve_parts obj parts = Some v ->
  get_value_at_path obj (join "." parts) = v.
Proof.
  intros Hne Hf Hr. unfold get_value_at_path.
  rewrite split_dot_join by assumption.
  now rewrite walk_resolve_parts, Hr.
Qed.

Definition prefs_ext : value :=
  JDict [("extensions", JDict [("settings", JDict [("abc", v_xy)])])].

Lemma get_value_at_path_subscripts_witness :
  resolve_parts prefs_ext ["extensions"; "settings"; "abc"] = Some v_xy
  /\ get_value_at_path prefs_ext "extensions.settings.abc" = v_xy.
Proof.
  split; [reflexivity|].
  apply (get_value_at_path_subscripts prefs_ext ["extensions"; "settings"; "abc"] v_xy);
    [discriminate|reflexivity|reflexivity].
Defined.

Lemma dict_get_filter_keys (p : string -> bool) (d : list (string * value)) (k : string) :
  p k = true -> dict_get (filter (fun kv => p (fst kv)) d) k = dict_get d k.
Proof.
  intros Hk. induction d as [|[k' v'] d IH]; [reflexivity|].
  cbn [filter fst dict_get]. destruct (String.eqb_spec k k') as [<-|Hne].
  - rewrite Hk. cbn [dict_get]. now rewrite String.eqb_refl.
  - destruct (p k'); [|exact IH].
    cbn [dict_get]. destruct (String.eqb_spec k k'); [congruence|exact IH].
Qed.

(** X3. An entry whose key has a dot in it cannot be reached: a lookup in a
    dictionary gives what it gives with those entries taken out, and gives
    [None] for every path when every key has a dot. *)
Theorem dotted_keys_unreachable (d : list (string * value)) (path : string) :
  get_value_at_path (JDict d) path
  = get_value_at_path (JDict (filter (fun kv => dot_free (fst kv)) d)) path
  /\ (forallb (fun kv => negb (dot_free (fst kv))) d = true ->
      get_value_at_path (JDict d) path = JNull).
Proof.
  unfold get_value_at_path.
  pose proof (split_dot_not_nil path) as Hne.
  pose proof (split_dot_parts_free path) as Hf.
  destruct (split_dot path) as [|h t]; [congruence|].
  cbn [forallb] in Hf. apply andb_true_iff in Hf. destruct Hf as [Hh _].
  assert (dict_get (filter (fun kv => dot_free (fst kv)) d) h = dict_get d h) as E
    by (now apply (dict_get_filter_keys dot_free)).
  split.
  - cbn [walk]. now rewrite E.
  - intros Hall. cbn [walk].
    replace (dict_get d h) with (@None value); [apply walk_null|].
    symmetry. apply dict_get_None. intros Hin.
    apply in_map_iff in Hin. destruct Hin as [kv [Hk Hkv]].
    rewrite forallb_forall in Hall. specialize (Hall kv Hkv).
    rewrite Hk, Hh in Hall. discriminate.
Qed.

(** X4. Only dictionaries are walked into: when the snapshot is not a
    dictionary (a list, a string, a number, a boolean, [None]) every path,
    the empty one too, gives [None]; list elements cannot be addressed. *)
Theorem get_value_at_path_not_dict (obj : value) (path : string) :
  (forall d, obj <> JDict d) -> get_value_at_path obj path = JNull.
Proof.
  intros Hd. unfold get_value_at_path.
  pose proof (split_dot_not_nil path) as Hne.
  destruct (split_dot path) as [|h t]; [congruence|].
  destruct obj; try reflexivity. exfalso. now apply (Hd d).
Qed.

Lemma get_value_at_path_not_dict_witness :
  get_value_at_path (JList [JDict [("a", JInt 1)]]) "0.a" = JNull.
Proof.
  apply (get_value_at_path_not_dict (JList [JDict [("a", JInt 1)]]) "0.a").
  intros d. discriminate.
Defined.

(** ** The canonical form *)

Lemma sortedb_StronglySorted (l : list string) :
  sortedb l = true <-> StronglySorted le_str l.
Proof.
  split.
  - induction l as [|k l IH]; [constructor|].
    cbn [sortedb]. destruct l as [|k' l].
    + intros _. repeat constructor.
    + rewrite andb_true_iff. intros [Hk Hl]. specialize (IH Hl).
      constructor; [exact IH|].
      inversion IH as [|? ? _ Hk']; subst.
      constructor; [exact Hk|].
      eapply Forall_impl; [|exact Hk'].
      intros y Hy. eapply string_leb_trans; eassumption.
  - induction 1 as [|k l Hl IH Hk]; [reflexivity|].
    cbn [sortedb]. destruct l as [|k' l]; [reflexivity|].
    inversion Hk as [|? ? Hkk' _]; subst. unfold le_str in Hkk'.
    now rewrite Hkk', IH.
Qed.

Lemma map_fst_insert_item (kv : string * value) (l : list (string * value)) :
  map fst (insert_item kv l) = insert_key (fst kv) (map fst l).
Proof.
  induction l as [|x l IH]; [reflexivity|].
  cbn [insert_item map insert_key]. destruct (String.leb (fst kv) (fst x)); [reflexivity|].
  cbn [map]. now rewrite IH.
Qed.

Lemma map_fst_sorted_items (d : list (string * value)) :
  map fst (sorted_items d) = sorted (map fst d).
Proof.
  induction d as [|kv d IH]; [reflexivity|].
  cbn [sorted_items map sorted]. now rewrite map_fst_insert_item, IH.
Qed.

Lemma insert_item_perm (kv : string * value) (l : list (string * value)) :
  Permutation (insert_item kv l) (kv :: l).
Proof.
  induction l as [|x l IH]; [reflexivity|].
  cbn [insert_item]. destruct (String.leb (fst kv) (fst x)); [reflexivity|].
  rewrite IH. apply perm_swap.
Qed.

Lemma sorted_items_perm (d : list (string * value)) : Permutation (sorted_items d) d.
Proof.
  induction d as [|kv d IH]; [reflexivity|].
  cbn [sorted_items]. rewrite insert_item_perm. now constructor.
Qed.

(** Items whose keys are in order are left as they are. *)
Lemma sorted_items_id (d : list (string * value)) :
  sortedb (map fst d) = true -> sorted_items d = d.
Proof.
  induction d as [|kv d IH]; [reflexivity|].
  cbn [map sortedb sorted_items]. destruct d as [|kv' d].
  - reflexivity.
  - cbn [map]. rewrite andb_true_iff. intros [Hk Hd].
    rewrite IH by exact Hd. cbn [insert_item]. now rewrite Hk.
Qed.

Lemma forallb_map {A B} (p : B -> bool) (f : A -> B) (l : list A) :
  forallb p (map f l) = forallb (fun x => p (f x)) l.
Proof. induction l as [|x l IH]; [reflexivity|]. cbn [map forallb]. now rewrite IH. Qed.

Lemma Forall_forallb {A} (p : A -> bool) (l : list A) :
  Forall (fun x => p x = true) l -> forallb p l = true.
Proof. intros H. apply forallb_forall. now apply Forall_forall. Qed.

Lemma sort_dict_recursive_fixed (v : value) :
  deep_sorted v = true -> sort_dict_recursive v = v.
Proof.
  induction v as [| | | | |l IH|d IH] using value_induction; try reflexivity.
  - cbn [deep_sorted sort_dict_recursive]. rewrite forallb_forall. intros Hs.
    f_equal. rewrite <- (map_id l) at 2. apply map_ext_in.
    intros x Hx. rewrite Forall_forall in IH. auto.
  - cbn [deep_sorted]. rewrite andb_true_iff, forallb_forall. intros [Hk Hs].
    rewrite sort_dict_recursive_dict. f_equal.
    assert (map (fun kv => (fst kv, sort_dict_recursive (snd kv))) d = d) as ->.
    { rewrite <- (map_id d) at 2. apply map_ext_in. intros [k x] Hx.
      rewrite Forall_forall in IH. cbn [fst snd]. f_equal.
      apply (IH _ Hx). apply (Hs _ Hx). }
    now apply sorted_items_id.
Qed.

Lemma sort_dict_recursive_sorted (v : value) :
  deep_sorted (sort_dict_recursive v) = true.
Proof.
  induction v as [| | | | |l IH|d IH] using value_induction; try reflexivity.
  - cbn [deep_sorted sort_dict_recursive]. rewrite forallb_map.
    now apply Forall_forallb.
  - rewrite sort_dict_recursive_dict. cbn [deep_sorted].
    rewrite map_fst_sorted_items. apply andb_true_iff. split.
    + apply sortedb_StronglySorted, sorted_sorted.
    + apply forallb_forall. intros kv Hkv.
      apply (Permutation_in _ (sorted_items_perm _)) in Hkv.
      apply in_map_iff in Hkv. destruct Hkv as [[k x] [<- Hx]].
      rewrite Forall_forall in IH. apply (IH _ Hx).
Qed.

Lemma prune_loop_keys (f : string -> value) (ks : list string) :
  map fst (prune_loop f ks) = filter (fun k => negb (is_empty_container (f k))) ks.
Proof. rewrite prune_loop_filter. apply map_fst_pairs. Qed.

Lemma prune_loop_forallb (p : value -> bool) (f : string -> value) (ks : list string) :
  (forall k, p (f k) = true) ->
  forallb (fun kv => p (snd kv)) (prune_loop f ks) = true.
Proof.
  intros Hp. rewrite prune_loop_filter, forallb_map.
  apply forallb_forall. intros k _. apply Hp.
Qed.

Lemma prune_no_empty_entry (v : value) :
  no_empty_entry (prune_empty_recursive v) = true.
Proof.
  induction v as [| | | | |l IH|d IH] using value_induction; try reflexivity.
  - cbn [no_empty_entry prune_empty_recursive]. rewrite forallb_map.
    now apply Forall_forallb.
  - rewrite prune_empty_recursive_dict. cbn [no_empty_entry].
    rewrite prune_loop_filter, forallb_map. apply forallb_forall.
    intros k Hk. apply filter_In in Hk. destruct Hk as [_ Hk].
    cbn [snd]. rewrite Hk. cbn [andb].
    apply (Forall_dict_item (fun x => no_empty_entry (prune_empty_recursive x) = true));
      [reflexivity|exact IH].
Qed.

Lemma prune_deep_sorted (v : value) :
  deep_sorted (prune_empty_recursive v) = true.
Proof.
  induction v as [| | | | |l IH|d IH] using value_induction; try reflexivity.
  - cbn [deep_sorted prune_empty_recursive]. rewrite forallb_map.
    now apply Forall_forallb.
  - rewrite prune_empty_recursive_dict. cbn [deep_sorted].
    rewrite prune_loop_keys. apply andb_true_iff. split.
    + apply sortedb_StronglySorted, filter_sorted, sorted_sorted.
    + apply (prune_loop_forallb deep_sorted). intros k.
      apply (Forall_dict_item (fun x => deep_sorted (prune_empty_recursive x) = true));
        [reflexivity|exact IH].
Qed.

(** X5. What [prune_empty_recursive] returns is in canonical form whatever it
    is given: at every depth no dictionary entry is an empty dictionary or an
    empty list, and the keys of every dictionary are in sorted order. *)
Theorem prune_result_canonical (v : value) :
  no_empty_entry (prune_empty_recursive v) = true
  /\ deep_sorted (prune_empty_recursive v) = true.
Proof. split; [apply prune_no_empty_entry|apply prune_deep_sorted]. Qed.

Lemma wf_dict_item (d : list (string * value)) (k : string) :
  forallb (fun kv => wf (snd kv)) d = true -> wf (dict_item d k) = true.
Proof.
  intros H. apply (Forall_dict_item (fun x => wf x = true)); [reflexivity|].
  apply Forall_forall. now apply forallb_forall.
Qed.

Lemma prune_wf (v : value) : wf v = true -> wf (prune_empty_recursive v) = true.
Proof.
  induction v as [| | | | |l IH|d IH] using value_induction; try reflexivity.
  - cbn [wf prune_empty_recursive]. rewrite forallb_map, !forallb_forall.
    intros Hw x Hx. rewrite Forall_forall in IH. auto.
  - cbn [wf]. rewrite andb_true_iff. intros [HN Hw].
    rewrite prune_empty_recursive_dict. cbn [wf]. apply andb_true_iff. split.
    + rewrite prune_loop_keys. apply nodupb_NoDup, NoDup_filter.
      apply (Permutation_NoDup (Permutation_sym (sorted_perm _))).
      now apply nodupb_NoDup.
    + apply (prune_loop_forallb wf). intros k.
      unfold dict_item. destruct (dict_get d k) as [x|] eqn:E; [|reflexivity].
      apply dict_get_In in E. rewrite Forall_forall in IH.
      apply (IH _ E). rewrite forallb_forall in Hw. apply (Hw _ E).
Qed.

(** X6. Pruning keeps dictionaries well formed: when the keys of every
    dictionary of the value are distinct, so are those of the result. *)
Theorem prune_keeps_distinct_keys (v : value) :
  wf v = true -> wf (prune_empty_recursive v) = true.
Proof. apply prune_wf. Qed.

Lemma prune_keeps_distinct_keys_witness :
  wf v_nested = true /\ wf (prune_empty_recursive v_nested) = true.
Proof.
  split; [reflexivity|].
  apply (prune_keeps_distinct_keys v_nested). reflexivity.
Defined.

(** X7. The values in canonical form are the fixed points: a value with
    distinct keys, keys in sorted order and no empty dictionary or list as an
    entry, at every depth, is returned unchanged, and its canonical string is
    its plain serialisation. *)
Theorem prune_fixes_canonical (v : value) :
  wf v = true -> no_empty_entry v = true -> deep_sorted v = true ->
  prune_empty_recursive v = v
  /\ (plain_top v = true -> value_to_json_chromium v = json_dumps v).
Proof.
  intros Hw Hn Hs.
  assert (prune_empty_recursive v = v) as E
    by (rewrite prune_is_sort by assumption; now apply sort_dict_recursive_fixed).
  split; [exact E|].
  intros Hp. destruct v as [| [|] | | [r| | |] | |[|x l]|d];
    try discriminate; try reflexivity;
    unfold value_to_json_chromium; cbn [length Nat.eqb]; now rewrite E.
Qed.

Definition v_canonical : value :=
  JDict [("a", JDict [("c", JBool true); ("z", JStr "q")]); ("b", JList [JDict []; JInt 2])].

Lemma prune_fixes_canonical_witness :
  prune_empty_recursive v_canonical = v_canonical
  /\ value_to_json_chromium v_canonical = json_dumps v_canonical.
Proof.
  destruct (prune_fixes_canonical v_canonical) as [H1 H2];
    [reflexivity|reflexivity|reflexivity|].
  split; [exact H1|apply H2; reflexivity].
Defined.

(** ** Sorting and pruning together *)

Lemma sort_wf (v : value) : wf v = true -> wf (sort_dict_recursive v) = true.
Proof.
  induction v as [| | | | |l IH|d IH] using value_induction; try reflexivity.
  - cbn [wf sort_dict_recursive]. rewrite forallb_map, !forallb_forall.
    intros Hw x Hx. rewrite Forall_forall in IH. auto.
  - cbn [wf]. rewrite andb_true_iff. intros [HN Hw].
    rewrite sort_dict_recursive_dict. cbn [wf]. apply andb_true_iff. split.
    + rewrite map_fst_sorted_items. apply nodupb_NoDup.
      apply (Permutation_NoDup (Permutation_sym (sorted_perm _))).
      rewrite map_map. cbn [fst]. now apply nodupb_NoDup.
    + apply forallb_forall. intros kv Hkv.
      apply (Permutation_in _ (sorted_items_perm _)) in Hkv.
      apply in_map_iff in Hkv. destruct Hkv as [[k x] [<- Hx]].
      rewrite Forall_forall in IH. cbn [snd].
      apply (IH _ Hx). rewrite forallb_forall in Hw. apply (Hw _ Hx).
Qed.

Lemma prune_after_sort (v : value) :
  wf v = true ->
  prune_empty_recursive (sort_dict_recursive v) = prune_empty_recursive v.
Proof.
  induction v as [| | | | |l IH|d IH] using value_induction; try reflexivity.
  - cbn [wf sort_dict_recursive prune_empty_recursive]. rewrite forallb_forall.
    intros Hw. f_equal. rewrite map_map. apply map_ext_in.
    intros x Hx. rewrite Forall_forall in IH. auto.
  - cbn [wf]. rewrite andb_true_iff, nodupb_NoDup, forallb_forall. intros [HN Hw].
    rewrite sort_dict_recursive_dict.
    set (se := map (fun kv => (fst kv, sort_dict_recursive (snd kv))) d).
    assert (keys se = keys d) as Hk by apply keys_map_snd.
    assert (NoDup (keys se)) as HNs by (now rewrite Hk).
    rewrite !prune_empty_recursive_dict. f_equal.
    assert (sorted (keys (sorted_items se)) = sorted (keys d)) as ->.
    { rewrite <- Hk. apply sorted_permutation, Permutation_map, sorted_items_perm. }
    apply prune_loop_ext. intros k _.
    rewrite (dict_item_permutation (sorted_items se) se k);
      [| eapply Permutation_NoDup; [|exact HNs];
         apply Permutation_map, Permutation_sym, sorted_items_perm
       | apply sorted_items_perm ].
    unfold se. rewrite dict_item_map by reflexivity.
    unfold dict_item. destruct (dict_get d k) as [x|] eqn:E; [|reflexivity].
    apply dict_get_In in E. rewrite Forall_forall in IH.
    apply (IH _ E). apply (Hw _ E).
Qed.

(** X8. The two rewrites compose to pruning: pruning a value with distinct
    keys after sorting it is pruning it, and sorting what pruning returns
    changes nothing. *)
Theorem prune_absorbs_sort (v : value) :
  wf v = true ->
  prune_empty_recursive (sort_dict_recursive v) = prune_empty_recursive v
  /\ sort_dict_recursive (prune_empty_recursive v) = prune_empty_recursive v.
Proof.
  intros Hw. split; [now apply prune_after_sort|].
  apply sort_dict_recursive_fixed, prune_deep_sorted.
Qed.

Lemma prune_absorbs_sort_witness :
  prune_empty_recursive (sort_dict_recursive v_nested) = prune_empty_recursive v_nested
  /\ sort_dict_recursive (prune_empty_recursive v_nested) = prune_empty_recursive v_nested.
Proof. apply (prune_absorbs_sort v_nested). reflexivity. Defined.

(** X9. [sort_dict_recursive] returns a value whose dictionaries all have
    their keys in sorted order, keeps distinct keys distinct, and is
    idempotent. *)
Theorem sort_dict_recursive_idempotent (v : value) :
  deep_sorted (sort_dict_recursive v) = true
  /\ sort_dict_recursive (sort_dict_recursive v) = sort_dict_recursive v
  /\ (wf v = true -> wf (sort_dict_recursive v) = true).
Proof.
  split; [apply sort_dict_recursive_sorted|]. split; [|apply sort_wf].
  apply sort_dict_recursive_fixed, sort_dict_recursive_sorted.
Qed.

(** X10. The top-level rules of [value_to_json_chromium] change two things
    only: for every value but [None] and the non-finite floats, the canonical
    string is the serialisation of the pruned value. *)
Theorem canonical_string_is_pruned_dump (v : value) :
  plain_top v = true ->
  value_to_json_chromium v = json_dumps (prune_empty_recursive v).
Proof.
  destruct v as [| [|] | | [r| | |] | |[|x l]|d]; try discriminate; reflexivity.
Qed.

Lemma canonical_string_is_pruned_dump_witness :
  value_to_json_chromium (JBool true) = json_dumps (prune_empty_recursive (JBool true))
  /\ value_to_json_chromium (JStr "s") = json_dumps (prune_empty_recursive (JStr "s"))
  /\ value_to_json_chromium v_xy = json_dumps (prune_empty_recursive v_xy).
Proof.
  split; [|split].
  - apply (canonical_string_is_pruned_dump (JBool true)). reflexivity.
  - apply (canonical_string_is_pruned_dump (JStr "s")). reflexivity.
  - apply (canonical_string_is_pruned_dump v_xy). reflexivity.
Defined.

Lemma map_eq_nil_iff {A B} (f : A -> B) (l : list A) : map f l = [] -> l = [].
Proof. destruct l; [reflexivity|discriminate]. Qed.

(** X11. Key order does not matter at any depth: two values with distinct
    keys that [sort_dict_recursive] maps to the same value (they differ in
    the order of dictionary entries only) have the same canonical string and
    the same MAC. *)
Theorem canonical_string_ignores_key_order
  (seed device_id path : string) (v1 v2 : value) :
  wf v1 = true -> wf v2 = true ->
  sort_dict_recursive v1 = sort_dict_recursive v2 ->
  value_to_json_chromium v1 = value_to_json_chromium v2
  /\ calculate_mac seed device_id path v1 = calculate_mac seed device_id path v2.
Proof.
  intros H1 H2 E.
  assert (prune_empty_recursive v1 = prune_empty_recursive v2) as EP
    by (rewrite <- (prune_after_sort v1 H1), <- (prune_after_sort v2 H2); now rewrite E).
  assert (value_to_json_chromium v1 = value_to_json_chromium v2) as EJ.
  { destruct v1 as [| | | | |l1|d1], v2 as [| | | | |l2|d2];
      try (rewrite sort_dict_recursive_dict in E);
      try (rewrite (sort_dict_recursive_dict d2) in E);
      try discriminate E; try (injection E as ->); try reflexivity.
    - cbn [sort_dict_recursive] in E. injection E as E.
      unfold value_to_json_chromium. rewrite EP.
      assert (length l1 = length l2) as ->
        by (rewrite <- (length_map sort_dict_recursive l1), E; apply length_map).
      reflexivity.
    - unfold value_to_json_chromium. now rewrite EP. }
  split; [exact EJ|]. unfold calculate_mac. now rewrite EJ.
Qed.

Lemma canonical_string_ignores_key_order_witness :
  sort_dict_recursive v_nested = sort_dict_recursive v_canonical
  /\ value_to_json_chromium v_nested = value_to_json_chromium v_canonical
  /\ calculate_mac "S" "D1" "a.b" v_nested = calculate_mac "S" "D1" "a.b" v_canonical.
Proof.
  split; [reflexivity|].
  apply (canonical_string_ignores_key_order "S" "D1" "a.b" v_nested v_canonical);
    reflexivity.
Defined.

(** ** The message of the MAC *)

Lemma append_assoc (a b c : string) : (a +++ b) +++ c = a +++ b +++ c.
Proof. induction a as [|x a IH]; [reflexivity|]. cbn [String.append]. now rewrite IH. Qed.

(** X12. The message has no separator between its parts: characters moved
    from the end of the device id to the start of the path give the same
    MAC, in the verifier and in the search alike. *)
Theorem mac_message_has_no_separators (seed device_id moved path : string) (v : value) :
  calculate_mac seed (device_id +++ moved) path v
  = calculate_mac seed device_id (moved +++ path) v
  /\ calc_mac (device_id +++ moved) seed path v
     = calc_mac device_id seed (moved +++ path) v.
Proof.
  unfold calculate_mac, calc_mac. now rewrite !append_assoc.
Qed.

(** ** The verification loop *)

(** A record the loop looks at: not the [_description] entry, and with a
    filter, a path that has the filter in it. *)
Definition examined (filter_path path : string) : bool :=
  negb (String.eqb path "_description")
  && (String.eqb filter_path "" || str_contains filter_path path).

Section Loop.

Variables (DEVICE_ID FILE_SEED : string) (secure_prefs : value) (filter_path : string).

Let pass (pe : string * string) : bool :=
  record_passes DEVICE_ID FILE_SEED secure_prefs (fst pe) (snd pe).

Let item (pe : string * string) : string * string * string * value :=
  (fst pe, snd pe,
   calculate_mac FILE_SEED DEVICE_ID (fst pe) (get_value_at_path secure_prefs (fst pe)),
   get_value_at_path secure_prefs (fst pe)).

Let looked_at (file_macs : list (string * string)) : list (string * string) :=
  filter (fun pe => examined filter_path (fst pe)) file_macs.

Lemma main_loop_spec (file_macs : list (string * string)) (r : report) :
  main_loop DEVICE_ID FILE_SEED secure_prefs filter_path file_macs r
  = mkReport (passed r + length (filter pass (looked_at file_macs)))
             (failed r + length (filter (fun pe => negb (pass pe)) (looked_at file_macs)))
             (failed_items r
              ++ map item (filter (fun pe => negb (pass pe)) (looked_at file_macs))).
Proof.
  revert r. induction file_macs as [|[path e] l IH]; intros r.
  - cbn. rewrite !Nat.add_0_r, app_nil_r. now destruct r.
  - cbn [main_loop].
    change (looked_at ((path, e) :: l))
      with (if examined filter_path path then (path, e) :: looked_at l else looked_at l).
    unfold examined.
    destruct (String.eqb path "_description"); cbn [negb andb]; [apply IH|].
    assert (forall r',
      r' = (if String.eqb (calculate_mac FILE_SEED DEVICE_ID path
                             (get_value_at_path secure_prefs path)) e
            then mkReport (S (passed r)) (failed r) (failed_items r)
            else mkReport (passed r) (S (failed r))
                   (failed_items r ++ [item (path, e)])) ->
      main_loop DEVICE_ID FILE_SEED secure_prefs filter_path l r'
      = mkReport (passed r + length (filter pass ((path, e) :: looked_at l)))
          (failed r
           + length (filter (fun pe => negb (pass pe)) ((path, e) :: looked_at l)))
          (failed_items r
           ++ map item (filter (fun pe => negb (pass pe)) ((path, e) :: looked_at l))))
      as Hstep.
    { intros r' ->. rewrite IH. cbn [filter].
      change (pass (path, e))
        with (String.eqb (calculate_mac FILE_SEED DEVICE_ID path
                            (get_value_at_path secure_prefs path)) e).
      destruct (String.eqb _ e); cbn [negb passed failed failed_items length map].
      - f_equal; lia.
      - rewrite <- app_assoc. f_equal; lia. }
    destruct (String.eqb filter_path ""); cbn [negb andb orb].
    + destruct (String.eqb _ e) eqn:E; apply Hstep; rewrite ?E; reflexivity.
    + destruct (str_contains filter_path path); cbn [negb]; [|apply IH].
      destruct (String.eqb _ e) eqn:E; apply Hstep; rewrite ?E; reflexivity.
Qed.

(** X13. The report of a run is a function of the records looked at, each
    taken alone: [passed] counts those whose expected MAC is the computed
    one, [failed] the others, and [failed_items] lists the others in the
    order of the capture, each with its path, expected MAC, computed MAC and
    value.  A failure changes nothing for the records after it. *)
Theorem main_loop_report (file_macs : list (string * string)) :
  main_loop DEVICE_ID FILE_SEED secure_prefs filter_path file_macs (mkReport 0 0 [])
  = mkReport (length (filter pass (looked_at file_macs)))
             (length (filter (fun pe => negb (pass pe)) (looked_at file_macs)))
             (map item (filter (fun pe => negb (pass pe)) (looked_at file_macs))).
Proof. rewrite main_loop_spec. reflexivity. Qed.

Lemma filter_partition_length {A} (p : A -> bool) (l : list A) :
  (length (filter p l) + length (filter (fun x => negb (p x)) l))%nat = length l.
Proof.
  induction l as [|x l IH]; [reflexivity|].
  cbn [filter]. destruct (p x); cbn [negb length]; lia.
Qed.

(** X14. The counts add up: from any report on, a run adds to
    [passed + failed] the number of records looked at, and adds one failed
    item for each failure it counts. *)
Theorem main_loop_counts (file_macs : list (string * string)) (r : report) :
  let r' := main_loop DEVICE_ID FILE_SEED secure_prefs filter_path file_macs r in
  (passed r' + failed r' = passed r + failed r + length (looked_at file_macs))%nat
  /\ (failed r' + length (failed_items r) = failed r + length (failed_items r'))%nat.
Proof.
  cbv zeta. rewrite main_loop_spec. cbn [passed failed failed_items].
  rewrite length_app, length_map.
  pose proof (filter_partition_length pass (looked_at file_macs)). lia.
Qed.

(** X15. A capture can be verified in pieces: running the loop over two lists
    one after the other, the report handed on, is running it over their
    concatenation. *)
Theorem main_loop_app (l1 l2 : list (string * string)) (r : report) :
  main_loop DEVICE_ID FILE_SEED secure_prefs filter_path (l1 ++ l2) r
  = main_loop DEVICE_ID FILE_SEED secure_prefs filter_path l2
      (main_loop DEVICE_ID FILE_SEED secure_prefs filter_path l1 r).
Proof.
  revert r. induction l1 as [|[path e] l1 IH]; intros r; [reflexivity|].
  cbn [app main_loop].
  destruct (String.eqb path "_description"); [apply IH|].
  destruct (negb (String.eqb filter_path "") && negb (str_contains filter_path path))%bool;
    [apply IH|].
  destruct (String.eqb _ e); apply IH.
Qed.

End Loop.

Lemma prefix_spec (n h : string) :
  String.prefix n h = true <-> exists b, h = n +++ b.
Proof.
  revert h. induction n as [|c n IH]; intros h.
  - split; [intros _; now exists h|]. intros _. destruct h; reflexivity.
  - destruct h as [|c' h]; cbn [String.prefix].
    + split; [discriminate|]. intros [b Hb]. discriminate.
    + destruct (ascii_dec c c') as [->|Hne].
      * rewrite IH. split; intros [b Hb]; exists b.
        -- cbn [String.append]. now rewrite <- Hb.
        -- cbn [String.append] in Hb. now injection Hb.
      * split; [discriminate|]. intros [b Hb].
        cbn [String.append] in Hb. injection Hb as E _. congruence.
Qed.

(** [needle in hay] holds exactly when [hay] is [needle] with something
    before and something after. *)
Lemma str_contains_spec (n h : string) :
  str_contains n h = true <-> exists a b, h = a +++ n +++ b.
Proof.
  split.
  - induction h as [|c h IH]; cbn [str_contains];
      destruct (String.prefix n _) eqn:E.
    + intros _. apply prefix_spec in E. destruct E as [b Hb]. now exists "", b.
    + discriminate.
    + intros _. apply prefix_spec in E. destruct E as [b Hb]. now exists "", b.
    + intros H. destruct (IH H) as [a [b Hab]]. exists (String c a), b.
      cbn [String.append]. now rewrite <- Hab.
  - intros [a [b Hab]]. revert h Hab. induction a as [|c a IH]; intros h Hab.
    + assert (String.prefix n h = true) as E by (apply prefix_spec; now exists b).
      destruct h; cbn [str_contains]; now rewrite E.
    + cbn [String.append] in Hab. subst h. cbn [str_contains].
      destruct (String.prefix n _); [reflexivity|]. now apply IH.
Qed.

(** X16. What the loop skips: the [_description] entry always, and, with a
    filter given on the command line, every record whose path does not have
    the filter in it as a substring; a skipped record is counted neither as
    passed nor as failed. *)
Theorem main_loop_skips
  (DEVICE_ID FILE_SEED : string) (secure_prefs : value) (filter_path : string)
  (path expected_mac : string) (rest : list (string * string)) (r : report) :
  path = "_description"
  \/ (filter_path <> "" /\ forall a b, path <> a +++ filter_path +++ b) ->
  main_loop DEVICE_ID FILE_SEED secure_prefs filter_path ((path, expected_mac) :: rest) r
  = main_loop DEVICE_ID FILE_SEED secure_prefs filter_path rest r.
Proof.
  intros [->|[Hf Hn]]; cbn [main_loop]; [reflexivity|].
  destruct (String.eqb path "_description"); [reflexivity|].
  apply String.eqb_neq in Hf. rewrite Hf.
  destruct (str_contains filter_path path) eqn:E; [|reflexivity].
  apply str_contains_spec in E. destruct E as [a [b Hab]].
  exfalso. exact (Hn a b Hab).
Qed.

Lemma str_contains_false (n h : string) :
  str_contains n h = false -> forall a b, h <> a +++ n +++ b.
Proof.
  intros E a b Hab.
  assert (str_contains n h = true) by (apply str_contains_spec; now exists a, b).
  congruence.
Qed.

Lemma main_loop_skips_witness :
  main_loop "D1" "S" prefs_ab "zz" [("a.b", lower_mac_xy)] (mkReport 0 0 [])
  = main_loop "D1" "S" prefs_ab "zz" [] (mkReport 0 0 []).
Proof.
  apply (main_loop_skips "D1" "S" prefs_ab "zz" "a.b" lower_mac_xy [] (mkReport 0 0 [])).
  right. split; [discriminate|]. apply str_contains_false. reflexivity.
Defined.

(** ** The search: removing keys *)

Lemma without_key_get (key : string) (d : list (string * value)) (k : string) :
  dict_get (without_key key d) k = if String.eqb k key then None else dict_get d k.
Proof.
  unfold without_key. induction d as [|[k' v'] d IH].
  - cbn. now destruct (String.eqb k key).
  - cbn [filter fst]. destruct (String.eqb_spec k' key) as [->|Hne]; cbn [negb].
    + rewrite IH. cbn [dict_get]. destruct (String.eqb k key); reflexivity.
    + cbn [dict_get]. destruct (String.eqb_spec k k') as [->|Hkk'].
      * destruct (String.eqb_spec k' key); [congruence|reflexivity].
      * exact IH.
Qed.

Lemma without_keys_absent (ex : list string) (d : list (string * value)) :
  (forall k, In k ex -> ~ In k (keys d)) -> without_keys ex d = d.
Proof.
  intros H. unfold without_keys. apply filter_all.
  intros kv Hkv. apply negb_true_iff.
  destruct (existsb (String.eqb (fst kv)) ex) eqn:E; [|reflexivity].
  apply existsb_exists in E. destruct E as [k [Hk Ek]].
  apply String.eqb_eq in Ek. subst k. exfalso. apply (H _ Hk).
  unfold keys. now apply in_map.
Qed.

(** X17. The dictionary without a key, as Tests 1 and 2 build it: the key is
    gone, every other key is bound as before, excluding the one-key list is
    removing the key, and removing a key that is not there changes nothing. *)
Theorem without_key_lookup (key : string) (d : list (string * value)) (k : string) :
  dict_get (without_key key d) k = (if String.eqb k key then None else dict_get d k)
  /\ without_keys [key] d = without_key key d
  /\ (~ In key (keys d) -> without_key key d = d).
Proof.
  split; [apply without_key_get|]. split.
  - unfold without_keys, without_key. apply filter_ext. intros kv.
    cbn [existsb]. now rewrite orb_false_r.
  - intros Hn. unfold without_key. apply filter_all. intros kv Hkv.
    apply negb_true_iff, String.eqb_neq. intros E. apply Hn. subst key.
    unfold keys. now apply in_map.
Qed.

Section SearchProperties.

Variables (DEVICE_ID FILE_SEED PATH EXPECTED_MAC : string).
Variable value_ : list (string * value).

Let removal_matches (key : string) : bool :=
  String.eqb (calc_mac DEVICE_ID FILE_SEED PATH (JDict (without_key key value_)))
             EXPECTED_MAC.

Lemma test1_loop_some (ks : list string) (key : string) :
  test1_loop DEVICE_ID FILE_SEED PATH EXPECTED_MAC value_ ks = Some key ->
  exists pre post,
    ks = pre ++ key :: post /\ removal_matches key = true
    /\ forall k, In k pre -> removal_matches k = false.
Proof.
  induction ks as [|k ks IH]; cbn [test1_loop]; [discriminate|].
  destruct (String.eqb _ EXPECTED_MAC) eqn:E.
  - intros [= <-]. exists [], ks. repeat split; [exact E|contradiction].
  - intros H. destruct (IH H) as [pre [post [-> [Hm Hpre]]]].
    exists (k :: pre), post. repeat split; [exact Hm|].
    intros k' [<-|Hin]; [exact E|now apply Hpre].
Qed.

Lemma test1_loop_none (ks : list string) :
  test1_loop DEVICE_ID FILE_SEED PATH EXPECTED_MAC value_ ks = None
  <-> forall k, In k ks -> removal_matches k = false.
Proof.
  induction ks as [|k ks IH]; cbn [test1_loop].
  - split; [contradiction|reflexivity].
  - destruct (String.eqb _ EXPECTED_MAC) eqn:E.
    + split; [discriminate|]. intros H. specialize (H k (or_introl eq_refl)).
      unfold removal_matches in H. congruence.
    + rewrite IH. split.
      * intros H k' [<-|Hin]; [exact E|now apply H].
      * intros H k' Hin. apply H. now right.
Qed.

Lemma sorted_app_le (pre post : list string) (key : string) :
  StronglySorted le_str (pre ++ key :: post) -> Forall (le_str key) post.
Proof.
  induction pre as [|x pre IH]; cbn [app]; intros H; inversion H; subst; auto.
Qed.

(** X18. Test 1 reports no false match and reports the first one: the key it
    names is a key of the value whose removal gives the expected MAC, and it
    is the least such key in the order of [sorted]. *)
Theorem test1_first_match (key : string) :
  test1 DEVICE_ID FILE_SEED PATH EXPECTED_MAC value_ = Some key ->
  In key (keys value_)
  /\ calc_mac DEVICE_ID FILE_SEED PATH (JDict (without_key key value_)) = EXPECTED_MAC
  /\ forall k, In k (keys value_) ->
       calc_mac DEVICE_ID FILE_SEED PATH (JDict (without_key k value_)) = EXPECTED_MAC ->
       String.leb key k = true.
Proof.
  unfold test1. intros H.
  destruct (test1_loop_some _ _ H) as [pre [post [Hks [Hm Hpre]]]].
  split; [|split].
  - apply sorted_In. rewrite Hks. apply in_or_app. right. now left.
  - now apply String.eqb_eq.
  - intros k Hk Hmk. apply (proj2 (sorted_In _ _)) in Hk. rewrite Hks in Hk.
    apply in_app_or in Hk. destruct Hk as [Hk|[<-|Hk]].
    + specialize (Hpre k Hk). unfold removal_matches in Hpre.
      rewrite Hmk, String.eqb_refl in Hpre. discriminate.
    + apply string_leb_refl.
    + pose proof (sorted_sorted (keys value_)) as HS. rewrite Hks in HS.
      apply sorted_app_le in HS. rewrite Forall_forall in HS. now apply HS.
Qed.

(** X19. Test 1 misses no match: it ends without one exactly when no key of
    the value gives the expected MAC when removed. *)
Theorem test1_no_match :
  test1 DEVICE_ID FILE_SEED PATH EXPECTED_MAC value_ = None
  <-> forall key, In key (keys value_) ->
        calc_mac DEVICE_ID FILE_SEED PATH (JDict (without_key key value_)) <> EXPECTED_MAC.
Proof.
  unfold test1. rewrite test1_loop_none. split.
  - intros H key Hk. apply String.eqb_neq. apply H. now apply sorted_In.
  - intros H k Hk. apply String.eqb_neq. apply H. now apply (proj1 (sorted_In _ _)).
Qed.

(** X20. An exclusion list of Test 2 none of whose keys is in the value tests
    the value itself again: it matches exactly when the unchanged value does. *)
Theorem test2_absent_keys (exclude_list : list string) :
  (forall k, In k exclude_list -> ~ In k (keys value_)) ->
  test2 DEVICE_ID FILE_SEED PATH EXPECTED_MAC value_ exclude_list
  = String.eqb (calc_mac DEVICE_ID FILE_SEED PATH (JDict value_)) EXPECTED_MAC.
Proof.
  intros H. unfold test2. now rewrite without_keys_absent.
Qed.

End SearchProperties.

Definition mac_x_alone : string :=
  "56E2479CA9E27E86F321BAE835623DCD8E5B1B67896530C76A04A56BDD1D553E".

Lemma test1_first_match_witness :
  test1 "D1" "S" "a.b" mac_x_alone [("y", JList []); ("x", JInt 1)] = Some "y"
  /\ calc_mac "D1" "S" "a.b" (JDict (without_key "y" [("y", JList []); ("x", JInt 1)]))
     = mac_x_alone.
Proof.
  assert (test1 "D1" "S" "a.b" mac_x_alone [("y", JList []); ("x", JInt 1)] = Some "y") as H
    by (vm_compute; reflexivity).
  split; [exact H|].
  exact (proj1 (proj2 (test1_first_match "D1" "S" "a.b" mac_x_alone
                         [("y", JList []); ("x", JInt 1)] "y" H))).
Defined.

Lemma test2_absent_keys_witness :
  test2 "D1" "S" "a.b" mac_x_alone [("x", JInt 1)] ["commands"; "events"] = true.
Proof.
  rewrite (test2_absent_keys "D1" "S" "a.b" mac_x_alone [("x", JInt 1)] ["commands"; "events"]).
  - vm_compute. reflexivity.
  - intros k [<-|[<-|[]]] [E|[]]; discriminate E.
Defined.

(** ** The search: the path variations *)

Lemma dict_set_get (d : list (string * value)) (k : string) (v : value) (k' : string) :
  dict_get (dict_set d k v) k' = if String.eqb k' k then Some v else dict_get d k'.
Proof.
  induction d as [|[k0 v0] d IH]; cbn [dict_set dict_get].
  - reflexivity.
  - destruct (String.eqb_spec k k0) as [<-|Hne]; cbn [dict_get].
    + destruct (String.eqb k' k); reflexivity.
    + rewrite IH. destruct (String.eqb_spec k' k0) as [->|Hk'].
      * destruct (String.eqb_spec k0 k); [congruence|reflexivity].
      * reflexivity.
Qed.

Lemma dict_set_same (d : list (string * value)) (k : string) (v : value) :
  dict_get d k = Some v -> dict_set d k v = d.
Proof.
  induction d as [|[k0 v0] d IH]; cbn [dict_set dict_get]; [discriminate|].
  destruct (String.eqb_spec k k0) as [<-|Hne].
  - now intros [= ->].
  - intros H. now rewrite IH.
Qed.

Lemma dict_set_twice (d : list (string * value)) (k : string) (a b : value) :
  dict_set (dict_set d k a) k b = dict_set d k b.
Proof.
  induction d as [|[k0 v0] d IH]; cbn [dict_set].
  - now rewrite String.eqb_refl.
  - destruct (String.eqb_spec k k0) as [<-|Hne]; cbn [dict_set].
    + now rewrite String.eqb_refl.
    + destruct (String.eqb_spec k k0); [congruence|]. now rewrite IH.
Qed.

Lemma dict_set_keys (d : list (string * value)) (k : string) (v : value) :
  In k (keys d) -> keys (dict_set d k v) = keys d.
Proof.
  induction d as [|[k0 v0] d IH]; cbn [dict_set keys map fst]; [contradiction|].
  destruct (String.eqb_spec k k0) as [<-|Hne]; [reflexivity|].
  intros [E|Hin]; [congruence|]. cbn [map fst]. f_equal. now apply IH.
Qed.

(** X21. Assignment to a dictionary entry, as Test 5 uses it: the key is bound
    to the new value and the other keys as before; a key already there keeps
    its place, so the keys and their order are unchanged; and a second
    assignment to the key replaces the first. *)
Theorem dict_set_lookup (d : list (string * value)) (k : string) (a b : value) (k' : string) :
  dict_get (dict_set d k a) k' = (if String.eqb k' k then Some a else dict_get d k')
  /\ (In k (keys d) -> keys (dict_set d k a) = keys d)
  /\ dict_set (dict_set d k a) k b = dict_set d k b.
Proof.
  split; [apply dict_set_get|]. split; [apply dict_set_keys|apply dict_set_twice].
Qed.

Lemma replace_char_absent (old : ascii) (new s : string) :
  forallb (fun c => negb (Ascii.eqb c old)) (list_ascii_of_string s) = true ->
  replace_char old new s = s.
Proof.
  induction s as [|c s IH]; [reflexivity|].
  cbn [list_ascii_of_string forallb replace_char].
  rewrite andb_true_iff, negb_true_iff. intros [Hc Hs].
  now rewrite Hc, IH.
Qed.

Section PathVariations.

Variables (DEVICE_ID FILE_SEED PATH : string).
Variable value_ : list (string * value).

Lemma test5_loop_independent (test_val : list (string * value)) (vs : list (string * string)) :
  test5_loop DEVICE_ID FILE_SEED PATH test_val vs
  = map (fun nv =>
           (fst nv,
            calc_mac DEVICE_ID FILE_SEED PATH (JDict (dict_set test_val "path" (JStr (snd nv))))))
        vs.
Proof.
  revert test_val. induction vs as [|[name path_val] vs IH]; intros test_val; [reflexivity|].
  cbn [test5_loop map fst snd]. f_equal. rewrite IH.
  apply map_ext. intros nv. now rewrite dict_set_twice.
Qed.

(** X22. Test 5 raises [KeyError] when the value has no [path] entry and
    [AttributeError] when that entry is not a string.  Otherwise it returns,
    for each of the three variations, the MAC of the value with the [path]
    entry set to that variation: the dictionary being one object assigned to
    in every round, no round sees the variation of the round before. *)
Theorem test5_rounds :
  test5 DEVICE_ID FILE_SEED PATH value_
  = match dict_get value_ "path" with
    | None => Raised (KeyError "path")
    | Some (JStr original_path) =>
        Returned
          (map (fun nv =>
                  (fst nv,
                   calc_mac DEVICE_ID FILE_SEED PATH
                     (JDict (dict_set value_ "path" (JStr (snd nv))))))
               (variations original_path))
    | Some _ => Raised AttributeError
    end.
Proof.
  unfold test5. destruct (dict_get value_ "path") as [[| | | |s| |]|]; try reflexivity.
  now rewrite test5_loop_independent.
Qed.

(** X23. The first variation of Test 5 is the value itself, and a [path] with
    no backslash in it makes the three variations one: every round then
    computes the MAC that [calc_mac] gives for the unchanged value. *)
Theorem test5_without_backslash (original_path : string) :
  dict_get value_ "path" = Some (JStr original_path) ->
  exists forward double,
    test5 DEVICE_ID FILE_SEED PATH value_
    = Returned [ ("Original", calc_mac DEVICE_ID FILE_SEED PATH (JDict value_));
                 ("Forward slashes", forward); ("Double backslash", double) ]
    /\ (forallb (fun c => negb (Ascii.eqb c backslash)) (list_ascii_of_string original_path)
        = true ->
        forward = calc_mac DEVICE_ID FILE_SEED PATH (JDict value_)
        /\ double = calc_mac DEVICE_ID FILE_SEED PATH (JDict value_)).
Proof.
  intros Hp. unfold test5. rewrite Hp, test5_loop_independent.
  cbn [variations map fst snd]. rewrite (dict_set_same value_ "path" _ Hp).
  eexists. eexists. split; [reflexivity|].
  intros Hb. rewrite !replace_char_absent by exact Hb.
  now rewrite (dict_set_same value_ "path" _ Hp).
Qed.

End PathVariations.

Definition ext_with_path : list (string * value) :=
  [("location", JInt 5); ("path", JStr "C:/ext/1.0"); ("state", JInt 1)].

Lemma test5_without_backslash_witness :
  exists forward double,
    test5 "D1" "S" "a.b" ext_with_path
    = Returned [ ("Original", calc_mac "D1" "S" "a.b" (JDict ext_with_path));
                 ("Forward slashes", forward); ("Double backslash", double) ]
    /\ (forallb (fun c => negb (Ascii.eqb c backslash)) (list_ascii_of_string "C:/ext/1.0")
        = true ->
        forward = calc_mac "D1" "S" "a.b" (JDict ext_with_path)
        /\ double = calc_mac "D1" "S" "a.b" (JDict ext_with_path)).
Proof.
  apply (test5_without_backslash "D1" "S" "a.b" ext_with_path "C:/ext/1.0").
  reflexivity.
Defined.

(** ** debug-extension.py: the key order analysis and the unsorted MAC *)

Lemma keys_eqb_eq (l1 l2 : list string) : keys_eqb l1 l2 = true <-> l1 = l2.
Proof.
  revert l2. induction l1 as [|a l1 IH]; intros [|b l2]; cbn [keys_eqb];
    try (split; [discriminate|discriminate]); [tauto|].
  rewrite andb_true_iff, String.eqb_eq, IH. split; [intros [-> ->]; reflexivity|].
  intros [= -> ->]. tauto.
Qed.

Lemma key_diffs_nil (i : nat) (os ss : list string) :
  length os = length ss -> key_diffs i os ss = [] -> os = ss.
Proof.
  revert i ss. induction os as [|o os IH]; intros i [|s ss]; cbn [length key_diffs];
    try discriminate; [reflexivity|].
  intros [= Hl]. destruct (String.eqb_spec o s) as [->|Hne]; [|discriminate].
  intros H. f_equal. now apply (IH (S i)).
Qed.

Lemma key_diffs_In (i : nat) (os ss : list string) (j : nat) (o s : string) :
  In (j, o, s) (key_diffs i os ss) ->
  (i <= j)%nat /\ nth_error os (j - i) = Some o /\ nth_error ss (j - i) = Some s /\ o <> s.
Proof.
  revert i ss. induction os as [|o' os IH]; intros i [|s' ss]; cbn [key_diffs];
    try contradiction.
  assert (In (j, o, s) (key_diffs (S i) os ss) ->
          (i <= j)%nat /\ nth_error (o' :: os) (j - i) = Some o
          /\ nth_error (s' :: ss) (j - i) = Some s /\ o <> s) as Hrec.
  { intros Hin. destruct (IH _ _ Hin) as [Hle [Ho [Hs Hne]]].
    replace (j - i)%nat with (S (j - S i)) by lia. cbn [nth_error].
    repeat split; [lia|exact Ho|exact Hs|exact Hne]. }
  destruct (String.eqb_spec o' s') as [->|Hne]; [now apply Hrec|].
  intros [[= <- <- <-]|Hin]; [|now apply Hrec].
  rewrite Nat.sub_diag. cbn [nth_error]. repeat split; [lia|exact Hne].
Qed.

(** X24. The key order analysis is consistent: it says the keys are already
    in sorted order exactly when they are, and otherwise it prints at least
    one position, each printed position holding the original key and the
    sorted key at that index, which differ. *)
Theorem key_order_analysis_sound (value_ : list (string * value)) :
  (key_order_analysis value_ = None <-> sorted (keys value_) = keys value_)
  /\ forall diffs,
      key_order_analysis value_ = Some diffs ->
      diffs <> []
      /\ forall i o s,
          In (i, o, s) diffs ->
          nth_error (keys value_) i = Some o
          /\ nth_error (sorted (keys value_)) i = Some s /\ o <> s.
Proof.
  unfold key_order_analysis. split.
  - destruct (keys_eqb _ _) eqn:E.
    + apply keys_eqb_eq in E. split; [now intros _|reflexivity].
    + split; [discriminate|]. intros H. rewrite H in E.
      assert (keys_eqb (keys value_) (keys value_) = true) by now apply keys_eqb_eq.
      congruence.
  - intros diffs. destruct (keys_eqb _ _) eqn:E; [discriminate|]. intros [= <-]. split.
    + intros Hnil.
      assert (keys value_ = sorted (keys value_)) as Hk
        by (apply (key_diffs_nil 0);
            [symmetry; apply Permutation_length, sorted_perm|exact Hnil]).
      apply keys_eqb_eq in Hk. congruence.
    + intros i o s Hin. apply key_diffs_In in Hin.
      rewrite Nat.sub_0_r in Hin. tauto.
Qed.

(** X25. Approach 3 of debug-extension.py (no sorting) computes the MAC of
    Approach 1 (sorted keys), which is [calc_mac] of the search, whenever
    the keys of every dictionary of the value, nested ones too, are already
    in sorted order. *)
Theorem unsorted_mac_of_sorted_value (DEVICE_ID FILE_SEED PATH : string) (v : value) :
  deep_sorted v = true ->
  mac_no_sorting DEVICE_ID FILE_SEED PATH v = calc_mac DEVICE_ID FILE_SEED PATH v.
Proof.
  intros H. unfold mac_no_sorting, calc_mac.
  now rewrite sort_dict_recursive_fixed.
Qed.

Lemma unsorted_mac_of_sorted_value_witness :
  mac_no_sorting "D1" "S" "a.b" v_canonical = calc_mac "D1" "S" "a.b" v_canonical.
Proof.
  apply (unsorted_mac_of_sorted_value "D1" "S" "a.b" v_canonical). reflexivity.
Defined.

(** ** What passes, what is empty, what pruning removes *)

(** X26. Only a well-shaped MAC can pass: a record counted as passed has an
    expected MAC of exactly 64 characters, each one of [0-9A-F]. *)
Theorem passing_mac_shape
  (DEVICE_ID FILE_SEED : string) (secure_prefs : value) (path expected_mac : string) :
  record_passes DEVICE_ID FILE_SEED secure_prefs path expected_mac = true ->
  String.length expected_mac = 64%nat
  /\ forallb is_upper_hex (list_ascii_of_string expected_mac) = true.
Proof.
  unfold record_passes. intros H. apply String.eqb_eq in H. subst expected_mac.
  unfold calculate_mac, hmac_sha256. split.
  - unfold upper. rewrite str_map_length, hexlify_length, hmac_digest_length. reflexivity.
  - apply upper_hexlify_hex.
Qed.

Lemma passing_mac_shape_witness :
  record_passes "D1" "S" prefs_ab "a.b" mac_x_alone = true
  /\ String.length mac_x_alone = 64%nat.
Proof.
  assert (record_passes "D1" "S" prefs_ab "a.b" mac_x_alone = true) as H
    by (vm_compute; reflexivity).
  split; [exact H|].
  exact (proj1 (passing_mac_shape "D1" "S" prefs_ab "a.b" mac_x_alone H)).
Defined.

Lemma str_int_not_empty (z : Z) : str_int z <> "".
Proof.
  unfold str_int. destruct (Z.to_int z) as [d|d]; cbn; [|discriminate].
  destruct d; discriminate.
Qed.

(** X27. [None] alone has the empty canonical string: for every value that is
    not a float, [value_to_json_chromium] returns the empty string exactly
    when the value is [None]; so the message of a [None] preference, and of
    an absent one, is the device id and the path with nothing after. *)
Theorem empty_canonical_string_is_none (v : value) :
  (forall f, v <> JFloat f) ->
  (value_to_json_chromium v = "" <-> v = JNull).
Proof.
  intros Hf. destruct v as [|[|]|z|f| s |l|d];
    try (split; [discriminate|discriminate]).
  - tauto.
  - split; [|discriminate]. intros H. exfalso. exact (str_int_not_empty z H).
  - exfalso. now apply (Hf f).
  - split; [|discriminate]. destruct l as [|x l]; discriminate.
  - split; [|discriminate]. unfold value_to_json_chromium.
    rewrite prune_empty_recursive_dict.
    destruct (prune_loop _ _); discriminate.
Qed.

Lemma empty_canonical_string_is_none_witness :
  (value_to_json_chromium (JDict [("y", JList [])]) = "" <-> JDict [("y", JList [])] = JNull).
Proof.
  apply (empty_canonical_string_is_none (JDict [("y", JList [])])).
  intros f. discriminate.
Defined.

Lemma Permutation_filter {A} (p : A -> bool) (l l' : list A) :
  Permutation l l' -> Permutation (filter p l) (filter p l').
Proof.
  induction 1 as [|x l l' HP IH|x y l|l l' l'' H1 IH1 H2 IH2]; cbn [filter].
  - constructor.
  - destruct (p x); [now constructor|exact IH].
  - destruct (p x), (p y); try reflexivity. apply perm_swap.
  - now transitivity (filter p l').
Qed.

Lemma sorted_filter (p : string -> bool) (l : list string) :
  sorted (filter p l) = filter p (sorted l).
Proof.
  apply sorted_unique.
  - apply sorted_sorted.
  - apply filter_sorted, sorted_sorted.
  - rewrite sorted_perm. apply Permutation_filter. symmetry. apply sorted_perm.
Qed.

Lemma keys_without_key (k : string) (d : list (string * value)) :
  keys (without_key k d) = filter (fun x => negb (String.eqb x k)) (keys d).
Proof.
  unfold keys, without_key. induction d as [|[k' v'] d IH]; [reflexivity|].
  cbn [filter map fst]. destruct (negb (String.eqb k' k)); cbn [map fst]; now rewrite IH.
Qed.

Lemma prune_loop_skip_key (f : string -> value) (k : string) (ks : list string) :
  is_empty_container (f k) = true ->
  prune_loop f (filter (fun x => negb (String.eqb x k)) ks) = prune_loop f ks.
Proof.
  intros He. induction ks as [|x ks IH]; [reflexivity|].
  cbn [filter prune_loop]. destruct (String.eqb_spec x k) as [->|Hne]; cbn [negb].
  - rewrite IH. unfold is_empty_container in He.
    destruct (is_empty_dict (f k)); [reflexivity|].
    cbn [orb] in He. now rewrite He.
  - cbn [prune_loop]. now rewrite IH.
Qed.

(** X28. Pruning is the removal of keys: taking out of a dictionary a key
    whose value prunes to an empty dictionary or an empty list, as Test 1 of
    the search does for every key, leaves the verifier's canonical string and
    MAC as they are. *)
Theorem removing_pruned_key_keeps_mac
  (seed device_id path : string) (d : list (string * value)) (k : string) :
  is_empty_container (prune_empty_recursive (dict_item d k)) = true ->
  value_to_json_chromium (JDict (without_key k d)) = value_to_json_chromium (JDict d)
  /\ calculate_mac seed device_id path (JDict (without_key k d))
     = calculate_mac seed device_id path (JDict d).
Proof.
  intros He.
  assert (value_to_json_chromium (JDict (without_key k d)) = value_to_json_chromium (JDict d))
    as EJ.
  { unfold value_to_json_chromium. rewrite !prune_empty_recursive_dict.
    rewrite keys_without_key, sorted_filter. do 2 f_equal.
    rewrite <- (prune_loop_skip_key (fun x => prune_empty_recursive (dict_item d x)) k)
      by exact He.
    apply prune_loop_ext. intros x Hx. apply filter_In in Hx. destruct Hx as [_ Hx].
    unfold dict_item. rewrite without_key_get.
    apply negb_true_iff in Hx. now rewrite Hx. }
  split; [exact EJ|]. unfold calculate_mac. now rewrite EJ.
Qed.

Lemma removing_pruned_key_keeps_mac_witness :
  value_to_json_chromium (JDict (without_key "y" [("x", JInt 1); ("y", JList [])]))
  = value_to_json_chromium v_xy
  /\ calculate_mac "S" "D1" "a.b" (JDict (without_key "y" [("x", JInt 1); ("y", JList [])]))
     = calculate_mac "S" "D1" "a.b" v_xy.
Proof.
  apply (removing_pruned_key_keeps_mac "S" "D1" "a.b" [("x", JInt 1); ("y", JList [])] "y").
  reflexivity.
Defined.
